(** * A chained hash table of contacts (hash_table.py): model and properties

    The Python module defines three classes: [Contact] (a mutable record
    with a name and a number), [Node] (a link of a bucket's chain) and
    [HashTable] (a fixed array of chains).

    Modelling choices.
    - A [Contact] is a mutable object that leaves the table: [search]
      returns the object itself.  Contacts therefore live in a store
      ([heap]), and the table holds references ([ref]) into it.
    - A [Node] is reachable only from the slot that heads its chain, so a
      chain is modelled as the value it denotes: a node carries its own
      [next] node.  The in-place assignment [current.next = Node(...)]
      becomes the rebuilt chain written back to the slot.
    - Python integers are [Z]; strings are [string], whose characters have
      the codes 0 to 255, and [ord] reads the code of a character.
    - Exceptions are explicit results ([Raise]); the methods are programs
      of a state-and-exception monad over the store and the table. *)

From Stdlib Require Import ZArith Lia String Ascii DecimalString.
From stdpp Require Import base list strings gmap.

Local Open Scope string_scope.
Local Open Scope list_scope.
Local Open Scope Z_scope.
Local Set Warnings "-register-all".

(** ** Objects *)

(** class Contact: name and number. *)
Record Contact := mkContact { name : string; number : string }.

(** A reference to a Contact object of the store. *)
Definition ref := nat.

(** class Node: key, value (a Contact object) and next (a Node or None). *)
Inductive Node := mkNode { key : string; value : ref; next : option Node }.

(** class HashTable: size and data, a list whose slots hold a chain or None. *)
Record HashTable := mkHashTable { size : Z; data : list (option Node) }.

(** The Contact objects alive in the program, and the table [self]. *)
Record State := mkState { heap : list Contact; self : HashTable }.

(** ** Exceptions and the monad of methods *)

Inductive exn :=
| ValueError (msg : string)
| ZeroDivisionError
| IndexError
| DanglingReference. (* no Python counterpart: a reference outside the store *)

Inductive result (A : Type) :=
| Ok (a : A)
| Raise (e : exn).
Arguments Ok {A} a.
Arguments Raise {A} e.

Definition M (A : Type) : Type := State -> result (A * State).

Definition ret {A} (a : A) : M A := fun st => Ok (a, st).

Definition bind {A B} (m : M A) (f : A -> M B) : M B :=
  fun st => match m st with
            | Ok (a, st') => f a st'
            | Raise e => Raise e
            end.

Definition raise {A} (e : exn) : M A := fun _ => Raise e.

Notation "x <- m ;; k" := (bind m (fun x => k))
  (at level 100, m at next level, right associativity).
Notation "m ;;; k" := (bind m (fun _ => k))
  (at level 100, right associativity).

(** ** Python primitives *)

(** ord(ch) *)
Definition ord (ch : ascii) : Z := Z.of_N (N_of_ascii ch).

(** str(i) for an int, as an f-string formats it. *)
Definition str_int (i : Z) : string := NilZero.string_of_int (Z.to_int i).

(** The newline that print writes. *)
Definition LF : string := String (ascii_of_nat 10) EmptyString.

(** range(n) *)
Definition range (n : Z) : list Z := Z.of_nat <$> seq 0 (Z.to_nat n).

(** a % b: floor modulo; raises ZeroDivisionError when b is 0. *)
Definition py_mod (a b : Z) : M Z :=
  if b =? 0 then raise ZeroDivisionError else ret (a mod b).

(** The position a list index denotes: negative indexes count from the
    end, anything else out of range has none. *)
Definition py_index {A} (l : list A) (i : Z) : option nat :=
  let n := Z.of_nat (length l) in
  if (0 <=? i) && (i <? n) then Some (Z.to_nat i)
  else if (- n <=? i) && (i <? 0) then Some (Z.to_nat (n + i))
  else None.

(** [None] * size *)
Definition list_repeat_None (n : Z) : list (option Node) :=
  replicate (Z.to_nat n) None.

(** self.size *)
Definition get_size : M Z := fun st => Ok (size (self st), st).

(** self.data[index] *)
Definition data_getitem (index : Z) : M (option Node) :=
  fun st =>
    match py_index (data (self st)) index with
    | Some k =>
        match data (self st) !! k with
        | Some slot => Ok (slot, st)
        | None => Raise IndexError
        end
    | None => Raise IndexError
    end.

(** self.data[index] = slot *)
Definition data_setitem (index : Z) (slot : option Node) : M unit :=
  fun st =>
    match py_index (data (self st)) index with
    | Some k =>
        Ok (tt, {| heap := heap st;
                   self := {| size := size (self st);
                              data := <[k := slot]> (data (self st)) |} |})
    | None => Raise IndexError
    end.

(** Contact(name, number): a new object, at a new reference. *)
Definition new_Contact (nm num : string) : M ref :=
  fun st => Ok (length (heap st),
                {| heap := heap st ++ [mkContact nm num]; self := self st |}).

(** [r.number = num] on the Contact object at r. *)
Definition set_number (r : ref) (num : string) : M unit :=
  fun st =>
    match heap st !! r with
    | Some c =>
        Ok (tt, {| heap := <[r := mkContact (name c) num]> (heap st);
                   self := self st |})
    | None => Raise DanglingReference
    end.

(** Contact.__str__ *)
Definition Contact_str (r : ref) : M string :=
  fun st =>
    match heap st !! r with
    | Some c => Ok (name c +:+ ": " +:+ number c, st)
    | None => Raise DanglingReference
    end.

(** ** class HashTable *)

(** HashTable.__init__ *)
Definition HashTable_init (sz : Z) : result HashTable :=
  if sz <=? 0 then Raise (ValueError "HashTable size must be positive")
  else Ok {| size := sz; data := list_repeat_None sz |}.

(** HashTable.hash_function: the loop adds ord(ch) to total, character by
    character. *)
Fixpoint hash_loop (total : Z) (k : string) : Z :=
  match k with
  | EmptyString => total
  | String ch rest => hash_loop (total + ord ch) rest
  end.

Definition hash_function (k : string) : M Z :=
  sz <- get_size ;;
  py_mod (hash_loop 0 k) sz.

(** The while loop of HashTable.insert, entered at a node [current]:
    an equal key has its Contact's number overwritten; at the last node
    the new node is linked.  The result is the chain from [current] on. *)
Fixpoint insert_loop (k num : string) (new_contact : ref) (current : Node)
  : M Node :=
  match current with
  | mkNode ck cv cnext =>
      if String.eqb ck k then
        set_number cv num ;;; ret current
      else
        match cnext with
        | None => ret (mkNode ck cv (Some (mkNode k new_contact None)))
        | Some nxt =>
            nxt' <- insert_loop k num new_contact nxt ;;
            ret (mkNode ck cv (Some nxt'))
        end
  end.

(** HashTable.insert *)
Definition insert (k num : string) : M unit :=
  index <- hash_function k ;;
  new_contact <- new_Contact k num ;;
  head <- data_getitem index ;;
  match head with
  | None => data_setitem index (Some (mkNode k new_contact None))
  | Some hd =>
      hd' <- insert_loop k num new_contact hd ;;
      data_setitem index (Some hd')
  end.

(** The while loop of HashTable.search. *)
Fixpoint search_loop (k : string) (current : Node) : option ref :=
  match current with
  | mkNode ck cv cnext =>
      if String.eqb ck k then Some cv
      else match cnext with
           | None => None
           | Some nxt => search_loop k nxt
           end
  end.

(** HashTable.search: a reference to the Contact, or None. *)
Definition search (k : string) : M (option ref) :=
  index <- hash_function k ;;
  current <- data_getitem index ;;
  match current with
  | None => ret None
  | Some hd => ret (search_loop k hd)
  end.

(** The while loop of HashTable.print_table: the text written for a chain. *)
Fixpoint print_chain (current : Node) : M string :=
  match current with
  | mkNode _ cv cnext =>
      s <- Contact_str cv ;;
      rest <- match cnext with
              | None => ret ""
              | Some nxt => print_chain nxt
              end ;;
      ret ("- " +:+ s +:+ " " +:+ rest)
  end.

(** One iteration of the for loop of HashTable.print_table. *)
Definition print_slot (i : Z) : M string :=
  current <- data_getitem i ;;
  match current with
  | None => ret ("Index " +:+ str_int i +:+ ":" +:+ " " +:+ "Empty" +:+ LF)
  | Some hd =>
      body <- print_chain hd ;;
      ret ("Index " +:+ str_int i +:+ ":" +:+ " " +:+ body +:+ LF)
  end.

Fixpoint print_slots (idx : list Z) : M string :=
  match idx with
  | [] => ret ""
  | i :: rest =>
      line <- print_slot i ;;
      more <- print_slots rest ;;
      ret (line +:+ more)
  end.

(** HashTable.print_table: the result is the text written to standard
    output. *)
Definition print_table : M string :=
  sz <- get_size ;;
  print_slots (range sz).

(** ** Histories: a table constructed and then filled by inserts *)

Fixpoint inserts (ops : list (string * string)) : M unit :=
  match ops with
  | [] => ret tt
  | (k, num) :: rest => insert k num ;;; inserts rest
  end.

(** [HashTable(capacity)] in a program whose store is [h0], followed by
    the inserts [ops] in order. *)
Definition after_inserts (capacity : Z) (h0 : list Contact)
    (ops : list (string * string)) : result State :=
  match HashTable_init capacity with
  | Ok t =>
      match inserts ops {| heap := h0; self := t |} with
      | Ok (_, st) => Ok st
      | Raise e => Raise e
      end
  | Raise e => Raise e
  end.

(** ** Reading a table: the entries of a chain and of the whole table *)

(** The (key, value) pairs of the nodes from [n] on, in chain order. *)
Fixpoint node_entries (n : Node) : list (string * ref) :=
  match n with
  | mkNode k v nx =>
      (k, v) :: match nx with
                | None => []
                | Some m => node_entries m
                end
  end.

Definition chain_entries (slot : option Node) : list (string * ref) :=
  match slot with
  | None => []
  | Some n => node_entries n
  end.

(** All entries, slot after slot. *)
Definition table_entries (t : HashTable) : list (string * ref) :=
  mjoin (chain_entries <$> data t).

Definition table_keys (t : HashTable) : list string := (table_entries t).*1.

(** The value of the first entry with key [k]. *)
Fixpoint lookup_entries (k : string) (l : list (string * ref)) : option ref :=
  match l with
  | [] => None
  | (k', r) :: rest => if String.eqb k' k then Some r else lookup_entries k rest
  end.

(** The slot a key belongs to, in a table of [sz] slots. *)
Definition home (sz : Z) (k : string) : nat := Z.to_nat (hash_loop 0 k mod sz).

(** The sum of the character codes of a string, as the specification
    words it. *)
Definition code_point_sum (k : string) : Z :=
  foldr Z.add 0 (ord <$> list_ascii_of_string k).

(** The lines of a text: each line ends at a newline. *)
Fixpoint lines_from (cur : string) (s : string) : list string :=
  match s with
  | EmptyString => match cur with EmptyString => [] | _ => [cur] end
  | String ch rest =>
      if Ascii.eqb ch (ascii_of_nat 10) then cur :: lines_from "" rest
      else lines_from (cur +:+ String ch "") rest
  end.

Definition lines (s : string) : list string := lines_from "" s.

(** ** The invariant of a table in its store *)

Record wf (st : State) : Prop := {
  wf_size : 0 < size (self st);
  wf_len : Z.of_nat (length (data (self st))) = size (self st);
  wf_home : forall i slot k r,
      data (self st) !! i = Some slot -> (k, r) ∈ chain_entries slot ->
      home (size (self st)) k = i;
  wf_ref : forall k r,
      (k, r) ∈ table_entries (self st) ->
      exists c, heap st !! r = Some c /\ name c = k;
  wf_keys : NoDup (table_keys (self st));
  wf_refs : NoDup (table_entries (self st)).*2 }.

(** Whether a text holds a newline. *)
Fixpoint has_LF (s : string) : bool :=
  match s with
  | EmptyString => false
  | String ch rest => Ascii.eqb ch (ascii_of_nat 10) || has_LF rest
  end.

(** The line that print_table writes for an empty slot, without its
    newline. *)
Definition empty_line (i : Z) : string := "Index " +:+ str_int i +:+ ": Empty".

(** ** Two statements of the specification, as it words them *)

(** Collision handling as the specification states it: after two distinct
    keys of one index are inserted, neither being in the table before,
    the chain of their slot has exactly these two entries. *)
Definition collision_claim_as_stated : Prop :=
  forall capacity h0 ops st K1 N1 K2 N2,
    after_inserts capacity h0 ops = Ok st ->
    K1 <> K2 ->
    hash_function K1 st = hash_function K2 st ->
    K1 ∉ table_keys (self st) -> K2 ∉ table_keys (self st) ->
    exists st2 r1 r2 i slot2,
      (insert K1 N1 ;;; insert K2 N2) st = Ok (tt, st2) /\
      search K1 st2 = Ok (Some r1, st2) /\
      heap st2 !! r1 = Some (mkContact K1 N1) /\
      search K2 st2 = Ok (Some r2, st2) /\
      heap st2 !! r2 = Some (mkContact K2 N2) /\
      hash_function K1 st = Ok (Z.of_nat i, st) /\
      data (self st2) !! i = Some slot2 /\
      chain_entries slot2 = [(K1, r1); (K2, r2)].

(** The pinned scenario: Amy and then May are inserted while their slot
    is empty, and the loop of print_table writes [text] for the chain of
    that slot. *)
Definition Amy_May_rendering (text : string) : Prop :=
  forall capacity h0 ops st,
    after_inserts capacity h0 ops = Ok st ->
    data (self st) !! home (size (self st)) "Amy" = Some None ->
    exists st2 i hd,
      (insert "Amy" "111-222-3333" ;;; insert "May" "222-333-1111") st
      = Ok (tt, st2) /\
      hash_function "Amy" st2 = Ok (i, st2) /\
      hash_function "May" st2 = Ok (i, st2) /\
      data_getitem i st2 = Ok (Some hd, st2) /\
      print_chain hd st2 = Ok (text, st2).

(** The states of the demonstration driver: a table of 10 slots, after
    John and Rebecca, and after Amy and May as well. *)
Definition driver_ops : list (string * string) :=
  [("John", "909-876-1234"); ("Rebecca", "111-555-0002")].

Definition state_or_empty (r : result State) : State :=
  match r with
  | Ok st => st
  | Raise _ => mkState [] (mkHashTable 0 [])
  end.

Definition driver_state : State :=
  Eval vm_compute in state_or_empty (after_inserts 10 [] driver_ops).

Definition driver_state_Amy_May : State :=
  Eval vm_compute in
    state_or_empty
      (after_inserts 10 []
         (driver_ops ++ [("Amy", "111-222-3333"); ("May", "222-333-1111")])).

(** ** Descriptions used by the further properties *)

(** The map from names to numbers that a sequence of inserts denotes: a
    later insert of a key replaces the number of an earlier one. *)
Definition contents_of_ops (ops : list (string * string)) : gmap string string :=
  foldl (fun m op => <[op.1 := op.2]> m) ∅ ops.

(** The distinct keys of a sequence, in the order in which each occurs
    first. *)
Definition first_occurrences (l : list string) : list string :=
  foldl (fun acc k => if decide (k ∈ acc) then acc else acc ++ [k]) [] l.

(** The text print_table writes for one entry, for a chain, and for the
    whole table, read off the store. *)
Definition entry_text (h : list Contact) (e : string * ref) : string :=
  match h !! e.2 with
  | Some c => "- " +:+ (name c +:+ ": " +:+ number c) +:+ " "
  | None => ""
  end.

Definition chain_text (h : list Contact) (l : list (string * ref)) : string :=
  foldr (fun e more => entry_text h e +:+ more) "" l.

Definition slot_line (h : list Contact) (i : nat) (slot : option Node) : string :=
  "Index " +:+ str_int (Z.of_nat i) +:+ ": "
  +:+ match slot with
      | None => "Empty"
      | Some hd => chain_text h (node_entries hd)
      end.

(** The lines of the slots [d], the first of which has index [i]. *)
Fixpoint slot_lines (h : list Contact) (i : nat) (d : list (option Node))
  : list string :=
  match d with
  | [] => []
  | slot :: rest => slot_line h i slot :: slot_lines h (S i) rest
  end.

Definition table_lines (st : State) : list string :=
  slot_lines (heap st) 0 (data (self st)).

Definition text_of_lines (ls : list string) : string :=
  foldr (fun line more => line +:+ LF +:+ more) "" ls.

Definition table_text (st : State) : string := text_of_lines (table_lines st).

(** * Proofs *)

(** ** The demonstration driver *)

Example driver_search_John :
  exists st r,
    after_inserts 10 [] [("John", "909-876-1234"); ("Rebecca", "111-555-0002")]
      = Ok st /\
    search "John" st = Ok (Some r, st) /\
    Contact_str r st = Ok ("John: 909-876-1234", st) /\
    search "Chris" st = Ok (None, st).
Proof. do 2 eexists. repeat split; reflexivity. Qed.

(** ** Chains *)

Lemma Node_induction (P : Node -> Prop) :
  (forall k v, P (mkNode k v None)) ->
  (forall k v n, P n -> P (mkNode k v (Some n))) ->
  forall n, P n.
Proof.
  intros Hlast Hlink. fix IH 1.
  intros [k v [n|]]; [apply Hlink, IH | apply Hlast].
Qed.

Lemma search_loop_entries k n :
  search_loop k n = lookup_entries k (node_entries n).
Proof.
  induction n as [k' v|k' v n IH] using Node_induction; simpl.
  - destruct (String.eqb k' k); reflexivity.
  - destruct (String.eqb k' k); [reflexivity|exact IH].
Qed.

Lemma lookup_entries_Some k l r :
  lookup_entries k l = Some r -> (k, r) ∈ l.
Proof.
  induction l as [|[k' r'] l IH]; simpl; [discriminate|].
  destruct (String.eqb_spec k' k) as [->|Hne].
  - intros [= ->]. apply list_elem_of_here.
  - intros H. apply list_elem_of_further, IH, H.
Qed.

Lemma lookup_entries_None k l :
  lookup_entries k l = None <-> k ∉ l.*1.
Proof.
  induction l as [|[k' r'] l IH]; simpl.
  - split; [intros _; apply not_elem_of_nil|reflexivity].
  - rewrite not_elem_of_cons. destruct (String.eqb_spec k' k) as [->|Hne].
    + split; [discriminate|intros [H _]; congruence].
    + rewrite IH. split; [intros H; split; [congruence|exact H]|intros [_ H]; exact H].
Qed.

Lemma lookup_entries_NoDup k l r :
  NoDup l.*1 -> (k, r) ∈ l -> lookup_entries k l = Some r.
Proof.
  induction l as [|[k' r'] l IH]; simpl.
  - intros _ H. inversion H.
  - rewrite NoDup_cons. intros [Hk Hnd] Hin.
    apply elem_of_cons in Hin as [[= <- <-]|Hin].
    + rewrite String.eqb_refl. reflexivity.
    + destruct (String.eqb_spec k' k) as [->|Hne]; [|auto].
      exfalso. apply Hk. apply (list_elem_of_fmap_2 fst _ (k, r)). exact Hin.
Qed.

(** The loop of insert on a chain that holds the key: the chain is
    returned as it is, and the Contact of the first match has its number
    overwritten. *)
Lemma insert_loop_found k num new n st r c :
  search_loop k n = Some r ->
  heap st !! r = Some c ->
  insert_loop k num new n st
  = Ok (n, {| heap := <[r := mkContact (name c) num]> (heap st);
              self := self st |}).
Proof.
  revert r. induction n as [k' v|k' v n IH] using Node_induction;
    intros r; simpl.
  - destruct (String.eqb k' k); [|discriminate].
    intros [= ->] Hc. unfold bind, set_number, ret. rewrite Hc. reflexivity.
  - destruct (String.eqb k' k).
    + intros [= ->] Hc. unfold bind, set_number, ret. rewrite Hc. reflexivity.
    + intros Hs Hc. unfold bind at 1. rewrite (IH _ Hs Hc). reflexivity.
Qed.

(** The loop of insert on a chain without the key: a node for the new
    Contact is linked after the last one, the store is not touched. *)
Lemma insert_loop_absent k num new n st :
  search_loop k n = None ->
  exists n', insert_loop k num new n st = Ok (n', st) /\
             node_entries n' = node_entries n ++ [(k, new)].
Proof.
  induction n as [k' v|k' v n IH] using Node_induction; simpl.
  - destruct (String.eqb k' k); [discriminate|]. intros _.
    eexists. split; reflexivity.
  - destruct (String.eqb k' k); [discriminate|]. intros Hs.
    destruct (IH Hs) as (n' & Hrun & Hent).
    exists (mkNode k' v (Some n')). split.
    + unfold bind. rewrite Hrun. reflexivity.
    + simpl. rewrite Hent. reflexivity.
Qed.

(** ** The primitives on a table whose size is its number of slots *)

Lemma py_index_in_range {A} (l : list A) (i : Z) :
  0 <= i < Z.of_nat (length l) -> py_index l i = Some (Z.to_nat i).
Proof.
  intros [H0 H1]. unfold py_index.
  destruct (Z.leb_spec 0 i); [|lia]. destruct (Z.ltb_spec i (Z.of_nat (length l))); [|lia].
  reflexivity.
Qed.

Lemma hash_function_run k st :
  size (self st) <> 0 ->
  hash_function k st = Ok (hash_loop 0 k mod size (self st), st).
Proof.
  intros Hsz. unfold hash_function, bind, get_size, py_mod.
  destruct (Z.eqb_spec (size (self st)) 0); [contradiction|reflexivity].
Qed.

Lemma home_lt sz k : 0 < sz -> (home sz k < Z.to_nat sz)%nat.
Proof.
  intros Hsz. unfold home.
  pose proof (Z.mod_pos_bound (hash_loop 0 k) sz Hsz). lia.
Qed.

Lemma home_index sz k :
  0 < sz -> Z.of_nat (home sz k) = hash_loop 0 k mod sz.
Proof.
  intros Hsz. unfold home.
  pose proof (Z.mod_pos_bound (hash_loop 0 k) sz Hsz). lia.
Qed.

Section primitives.
Variable t : HashTable.
Hypothesis Hsize : 0 < size t.
Hypothesis Hlen : Z.of_nat (length (data t)) = size t.

Lemma home_slot k : exists slot, data t !! home (size t) k = Some slot.
Proof.
  apply lookup_lt_is_Some_2.
  pose proof (home_lt (size t) k Hsize). lia.
Qed.

Lemma py_index_home k :
  py_index (data t) (hash_loop 0 k mod size t) = Some (home (size t) k).
Proof.
  apply py_index_in_range.
  pose proof (Z.mod_pos_bound (hash_loop 0 k) _ Hsize). lia.
Qed.

Lemma data_getitem_home k slot h :
  data t !! home (size t) k = Some slot ->
  data_getitem (hash_loop 0 k mod size t) (mkState h t)
  = Ok (slot, mkState h t).
Proof.
  intros Hslot. unfold data_getitem. simpl.
  rewrite py_index_home, Hslot. reflexivity.
Qed.

Lemma data_setitem_home k slot h :
  data_setitem (hash_loop 0 k mod size t) slot (mkState h t)
  = Ok (tt, mkState h (mkHashTable (size t)
                         (<[home (size t) k := slot]> (data t)))).
Proof.
  unfold data_setitem. simpl. rewrite py_index_home. reflexivity.
Qed.

(** search reads the chain of the key's slot and leaves the state as it
    is. *)
Lemma search_run k slot h :
  data t !! home (size t) k = Some slot ->
  search k (mkState h t)
  = Ok (lookup_entries k (chain_entries slot), mkState h t).
Proof.
  intros Hslot. unfold search, bind.
  rewrite hash_function_run by (simpl; lia). simpl.
  rewrite (data_getitem_home k slot h Hslot).
  destruct slot as [hd|]; unfold ret; simpl; [|reflexivity].
  rewrite search_loop_entries. reflexivity.
Qed.

(** insert on a key that its slot's chain holds: only the store
    changes. *)
Lemma insert_run_found k num slot h r c :
  data t !! home (size t) k = Some slot ->
  lookup_entries k (chain_entries slot) = Some r ->
  h !! r = Some c ->
  insert k num (mkState h t)
  = Ok (tt, mkState (<[r := mkContact (name c) num]>
                       (h ++ [mkContact k num])) t).
Proof.
  intros Hslot Hfind Hc. unfold insert, bind at 1.
  rewrite hash_function_run by (simpl; lia).
  unfold bind at 1, new_Contact. unfold bind at 1. simpl.
  rewrite (data_getitem_home k slot _ Hslot).
  destruct slot as [hd|]; [|discriminate]. simpl in Hfind.
  rewrite <- search_loop_entries in Hfind.
  unfold bind.
  rewrite (insert_loop_found k num _ hd _ r c Hfind)
    by (simpl; apply lookup_app_l_Some, Hc).
  simpl. rewrite data_setitem_home.
  rewrite (list_insert_id (data t) _ _ Hslot).
  destruct t; reflexivity.
Qed.

(** insert on a key that its slot's chain does not hold: a Contact is
    created and an entry for it ends the chain. *)
Lemma insert_run_absent k num slot h :
  data t !! home (size t) k = Some slot ->
  lookup_entries k (chain_entries slot) = None ->
  exists slot',
    chain_entries slot' = chain_entries slot ++ [(k, length h)] /\
    insert k num (mkState h t)
    = Ok (tt, mkState (h ++ [mkContact k num])
                (mkHashTable (size t)
                   (<[home (size t) k := slot']> (data t)))).
Proof.
  intros Hslot Hfind. unfold insert, bind at 1.
  rewrite hash_function_run by (simpl; lia).
  unfold bind at 1, new_Contact. unfold bind at 1. simpl.
  rewrite (data_getitem_home k slot _ Hslot).
  destruct slot as [hd|].
  - simpl in Hfind. rewrite <- search_loop_entries in Hfind.
    destruct (insert_loop_absent k num (length h) hd
                (mkState (h ++ [mkContact k num]) t)
                Hfind) as (n' & Hrun & Hent).
    exists (Some n'). split; [exact Hent|].
    unfold bind. rewrite Hrun. apply data_setitem_home.
  - exists (Some (mkNode k (length h) None)). split; [reflexivity|].
    apply data_setitem_home.
Qed.
End primitives.

(** ** The entries of a table and the slot they sit in *)

Lemma table_entries_elem t e :
  e ∈ table_entries t <->
  exists i slot, data t !! i = Some slot /\ e ∈ chain_entries slot.
Proof.
  unfold table_entries. rewrite list_elem_of_join. split.
  - intros (l & He & Hl). apply list_elem_of_fmap in Hl as (slot & -> & Hslot).
    apply list_elem_of_lookup in Hslot as (i & Hi). eauto.
  - intros (i & slot & Hi & He). exists (chain_entries slot). split; [exact He|].
    apply list_elem_of_fmap_2. eapply list_elem_of_lookup_2, Hi.
Qed.

Lemma entries_split (d : list (option Node)) i slot :
  d !! i = Some slot ->
  mjoin (chain_entries <$> d)
  = mjoin (chain_entries <$> take i d) ++ chain_entries slot
    ++ mjoin (chain_entries <$> drop (S i) d).
Proof.
  intros Hi. rewrite <- (take_drop_middle d i slot Hi) at 1.
  rewrite fmap_app, join_app. reflexivity.
Qed.

Lemma entries_insert (d : list (option Node)) i slot slot' :
  d !! i = Some slot ->
  mjoin (chain_entries <$> <[i := slot']> d)
  = mjoin (chain_entries <$> take i d) ++ chain_entries slot'
    ++ mjoin (chain_entries <$> drop (S i) d).
Proof.
  intros Hi. rewrite insert_take_drop by (eapply lookup_lt_Some, Hi).
  rewrite fmap_app, join_app. reflexivity.
Qed.

(** Linking one entry at the end of a chain adds that entry to the table
    and moves no other. *)
Lemma table_entries_extend t i slot slot' e :
  data t !! i = Some slot ->
  chain_entries slot' = chain_entries slot ++ [e] ->
  table_entries (mkHashTable (size t) (<[i := slot']> (data t)))
  ≡ₚ e :: table_entries t.
Proof.
  intros Hi Hext. unfold table_entries. simpl.
  rewrite (entries_insert _ _ _ slot' Hi), (entries_split _ _ _ Hi), Hext.
  rewrite <- app_assoc. simpl.
  rewrite (Permutation_middle (mjoin (chain_entries <$> take i (data t)))).
  apply Permutation_app_head.
  rewrite (Permutation_middle (chain_entries slot)).
  reflexivity.
Qed.

Lemma chain_keys_NoDup t i slot :
  NoDup (table_keys t) -> data t !! i = Some slot ->
  NoDup (chain_entries slot).*1.
Proof.
  unfold table_keys, table_entries. intros Hnd Hi.
  rewrite (entries_split _ _ _ Hi), !fmap_app in Hnd.
  apply NoDup_app in Hnd as (_ & _ & Hnd).
  apply NoDup_app in Hnd as (Hnd & _). exact Hnd.
Qed.

Section invariant.
Variable st : State.
Hypothesis Hwf : wf st.

(** A key of the table is found by looking in its own slot. *)
Lemma wf_lookup_home k slot r :
  data (self st) !! home (size (self st)) k = Some slot ->
  lookup_entries k (chain_entries slot) = Some r <->
  (k, r) ∈ table_entries (self st).
Proof.
  intros Hslot. split.
  - intros Hl. apply table_entries_elem. eauto using lookup_entries_Some.
  - intros Hin. apply table_entries_elem in Hin as (i & slot0 & Hi & Hin).
    pose proof (wf_home st Hwf i slot0 k r Hi Hin) as <-.
    assert (slot0 = slot) as -> by congruence.
    apply lookup_entries_NoDup; [|exact Hin].
    eapply chain_keys_NoDup; [apply (wf_keys st Hwf)|exact Hslot].
Qed.

Lemma wf_lookup_home_None k slot :
  data (self st) !! home (size (self st)) k = Some slot ->
  lookup_entries k (chain_entries slot) = None <->
  k ∉ table_keys (self st).
Proof.
  intros Hslot. split.
  - intros Hl Hin. apply list_elem_of_fmap in Hin as ([k' r] & -> & Hin).
    simpl in *. apply (wf_lookup_home _ slot) in Hin; [|exact Hslot].
    congruence.
  - intros Hk. destruct (lookup_entries k (chain_entries slot)) as [r|] eqn:E;
      [|reflexivity].
    exfalso. apply Hk. apply (wf_lookup_home _ _ _ Hslot) in E.
    apply (list_elem_of_fmap_2 fst _ (k, r)). exact E.
Qed.

(** search returns the reference of the key's entry, or None when the
    table has no such key; the state is as before. *)
Lemma wf_search k :
  exists o, search k st = Ok (o, st) /\
    (forall r, o = Some r <-> (k, r) ∈ table_entries (self st)) /\
    (o = None <-> k ∉ table_keys (self st)).
Proof.
  destruct (home_slot (self st) (wf_size st Hwf) (wf_len st Hwf) k)
    as [slot Hslot].
  exists (lookup_entries k (chain_entries slot)). split; [|split].
  - pose proof (search_run (self st) (wf_size st Hwf) (wf_len st Hwf)
                  k slot (heap st) Hslot) as Hrun.
    destruct st; exact Hrun.
  - intros r. apply wf_lookup_home, Hslot.
  - apply wf_lookup_home_None, Hslot.
Qed.

(** insert of a key the table holds. *)
Lemma wf_insert_present k num r :
  (k, r) ∈ table_entries (self st) ->
  exists c, heap st !! r = Some c /\ name c = k /\
    insert k num st
    = Ok (tt, mkState (<[r := mkContact k num]>
                         (heap st ++ [mkContact k num])) (self st)).
Proof.
  intros Hin. destruct (wf_ref st Hwf k r Hin) as (c & Hc & Hname).
  exists c. split; [exact Hc|]. split; [exact Hname|].
  destruct (home_slot (self st) (wf_size st Hwf) (wf_len st Hwf) k)
    as [slot Hslot].
  apply (wf_lookup_home _ _ _ Hslot) in Hin.
  pose proof (insert_run_found (self st) (wf_size st Hwf) (wf_len st Hwf)
                k num slot (heap st) r c Hslot Hin Hc) as Hrun.
  rewrite Hname in Hrun. destruct st; exact Hrun.
Qed.

(** insert of a key the table does not hold. *)
Lemma wf_insert_new k num :
  k ∉ table_keys (self st) ->
  exists slot slot',
    data (self st) !! home (size (self st)) k = Some slot /\
    chain_entries slot' = chain_entries slot ++ [(k, length (heap st))] /\
    insert k num st
    = Ok (tt, mkState (heap st ++ [mkContact k num])
                (mkHashTable (size (self st))
                   (<[home (size (self st)) k := slot']>
                      (data (self st))))).
Proof.
  intros Hk.
  destruct (home_slot (self st) (wf_size st Hwf) (wf_len st Hwf) k)
    as [slot Hslot].
  apply (wf_lookup_home_None _ _ Hslot) in Hk.
  destruct (insert_run_absent (self st) (wf_size st Hwf) (wf_len st Hwf)
              k num slot (heap st) Hslot Hk) as (slot' & Hext & Hrun).
  exists slot, slot'. split; [exact Hslot|]. split; [exact Hext|].
  destruct st; exact Hrun.
Qed.
End invariant.

(** ** The invariant holds of a new table and is kept by insert *)

Lemma entries_replicate_None n :
  mjoin (chain_entries <$> replicate n (None : option Node)) = [].
Proof. induction n as [|n IH]; simpl; [reflexivity|exact IH]. Qed.

Lemma HashTable_init_Ok sz t :
  HashTable_init sz = Ok t ->
  0 < sz /\ t = mkHashTable sz (replicate (Z.to_nat sz) None).
Proof.
  unfold HashTable_init. destruct (Z.leb_spec sz 0); [discriminate|].
  intros [= <-]. split; [lia|reflexivity].
Qed.

Lemma fresh_wf sz h0 t : HashTable_init sz = Ok t -> wf (mkState h0 t).
Proof.
  intros Hinit. apply HashTable_init_Ok in Hinit as [Hsz ->].
  split; simpl.
  - exact Hsz.
  - rewrite length_replicate. lia.
  - intros i slot k r Hi Hin. apply lookup_replicate in Hi as [-> _].
    inversion Hin.
  - unfold table_entries. simpl. rewrite entries_replicate_None.
    intros k r Hin. inversion Hin.
  - unfold table_keys, table_entries. simpl. rewrite entries_replicate_None.
    apply NoDup_nil_2.
  - unfold table_entries. simpl. rewrite entries_replicate_None.
    apply NoDup_nil_2.
Qed.

Lemma wf_update st k num r :
  wf st -> (k, r) ∈ table_entries (self st) ->
  wf (mkState (<[r := mkContact k num]> (heap st ++ [mkContact k num]))
        (self st)).
Proof.
  intros Hwf Hin. destruct (wf_ref st Hwf k r Hin) as (c & Hc & Hname).
  split; simpl; try apply Hwf.
  intros k' r' Hin'. destruct (wf_ref st Hwf k' r' Hin') as (c' & Hc' & Hname').
  destruct (decide (r' = r)) as [->|Hne].
  - exists (mkContact k num). split; [|simpl; congruence].
    apply list_lookup_insert_eq. rewrite length_app.
    apply lookup_lt_Some in Hc. lia.
  - exists c'. split; [|exact Hname'].
    rewrite list_lookup_insert_ne by congruence.
    apply lookup_app_l_Some, Hc'.
Qed.

Lemma wf_extend st k num slot slot' :
  wf st -> k ∉ table_keys (self st) ->
  data (self st) !! home (size (self st)) k = Some slot ->
  chain_entries slot' = chain_entries slot ++ [(k, length (heap st))] ->
  wf (mkState (heap st ++ [mkContact k num])
        (mkHashTable (size (self st))
           (<[home (size (self st)) k := slot']> (data (self st))))).
Proof.
  intros Hwf Hk Hslot Hext.
  pose proof (table_entries_extend (self st) _ slot slot' _ Hslot Hext) as Hperm.
  split; simpl.
  - apply Hwf.
  - rewrite length_insert. apply Hwf.
  - intros j slot0 k' r' Hj Hin.
    destruct (decide (home (size (self st)) k = j)) as [<-|Hne].
    + rewrite list_lookup_insert_eq in Hj by (eapply lookup_lt_Some, Hslot).
      injection Hj as <-. rewrite Hext in Hin.
      apply elem_of_app in Hin as [Hin|Hin].
      * eapply (wf_home st Hwf); eassumption.
      * apply list_elem_of_singleton in Hin. congruence.
    + rewrite list_lookup_insert_ne in Hj by exact Hne.
      eapply (wf_home st Hwf); eassumption.
  - intros k' r' Hin. rewrite Hperm in Hin.
    apply elem_of_cons in Hin as [[= -> ->]|Hin].
    + exists (mkContact k num). split; [|reflexivity].
      apply list_lookup_middle. reflexivity.
    + destruct (wf_ref st Hwf k' r' Hin) as (c & Hc & Hname).
      exists c. split; [apply lookup_app_l_Some, Hc|exact Hname].
  - unfold table_keys. rewrite Hperm. simpl. apply NoDup_cons.
    split; [exact Hk|apply Hwf].
  - rewrite Hperm. simpl. apply NoDup_cons. split; [|apply Hwf].
    intros Hin. apply list_elem_of_fmap in Hin as ([k' r'] & Hr & Hin).
    simpl in Hr. subst r'.
    destruct (wf_ref st Hwf k' _ Hin) as (c & Hc & _).
    apply lookup_lt_Some in Hc. lia.
Qed.

(** insert never raises on a table that satisfies the invariant; it keeps
    the invariant and the size, and the keys afterwards are the keys
    before and the inserted key. *)
Lemma insert_wf st k num :
  wf st ->
  exists st', insert k num st = Ok (tt, st') /\ wf st' /\
    size (self st') = size (self st) /\
    (forall k', k' ∈ table_keys (self st') <->
                k' = k \/ k' ∈ table_keys (self st)).
Proof.
  intros Hwf. destruct (decide (k ∈ table_keys (self st))) as [Hin|Hout].
  - pose proof Hin as Hin'.
    apply list_elem_of_fmap in Hin' as ([k' r] & Hk & Hin'). simpl in Hk. subst k'.
    destruct (wf_insert_present st Hwf k num r Hin') as (c & Hc & Hname & Hrun).
    eexists. split; [exact Hrun|]. split; [apply wf_update; assumption|].
    split; [reflexivity|]. simpl. intros k'. split; [auto|].
    intros [->|H]; assumption.
  - destruct (wf_insert_new st Hwf k num Hout)
      as (slot & slot' & Hslot & Hext & Hrun).
    eexists. split; [exact Hrun|].
    split; [eapply wf_extend; eassumption|]. split; [reflexivity|].
    intros k'. unfold table_keys.
    rewrite (table_entries_extend (self st) _ slot slot' _ Hslot Hext).
    simpl. apply elem_of_cons.
Qed.

Lemma inserts_wf ops : forall st,
  wf st ->
  exists st', inserts ops st = Ok (tt, st') /\ wf st' /\
    size (self st') = size (self st) /\
    (forall k, k ∈ table_keys (self st') <->
               k ∈ ops.*1 \/ k ∈ table_keys (self st)).
Proof.
  induction ops as [|[k num] ops IH]; intros st Hwf.
  - exists st. split; [reflexivity|]. split; [exact Hwf|]. split; [reflexivity|].
    intros k. simpl. rewrite elem_of_nil. tauto.
  - destruct (insert_wf st k num Hwf) as (st1 & Hrun1 & Hwf1 & Hsz1 & Hk1).
    destruct (IH st1 Hwf1) as (st2 & Hrun2 & Hwf2 & Hsz2 & Hk2).
    exists st2. split; [|split; [exact Hwf2|split; [congruence|]]].
    + simpl. unfold bind. rewrite Hrun1. exact Hrun2.
    + intros k'. rewrite Hk2, Hk1. simpl. rewrite elem_of_cons. tauto.
Qed.

(** A table constructed with a positive capacity and filled by inserts. *)
Lemma after_inserts_total capacity h0 ops :
  0 < capacity -> exists st, after_inserts capacity h0 ops = Ok st.
Proof.
  intros Hc. unfold after_inserts, HashTable_init.
  destruct (Z.leb_spec capacity 0); [lia|].
  destruct (inserts_wf ops (mkState h0 (mkHashTable capacity (list_repeat_None capacity))))
    as (st & Hrun & _).
  - apply (fresh_wf capacity). unfold HashTable_init.
    destruct (Z.leb_spec capacity 0); [lia|reflexivity].
  - exists st. rewrite Hrun. reflexivity.
Qed.

Lemma after_inserts_wf capacity h0 ops st :
  after_inserts capacity h0 ops = Ok st ->
  wf st /\ size (self st) = capacity /\
  (forall k, k ∈ table_keys (self st) <-> k ∈ ops.*1).
Proof.
  unfold after_inserts. destruct (HashTable_init capacity) as [t|e] eqn:Hinit;
    [|discriminate].
  destruct (inserts_wf ops (mkState h0 t) (fresh_wf _ h0 _ Hinit))
    as (st' & Hrun & Hwf & Hsz & Hk).
  rewrite Hrun. intros [= <-]. split; [exact Hwf|]. split.
  - rewrite Hsz. simpl. apply HashTable_init_Ok in Hinit as [_ ->]. reflexivity.
  - intros k. rewrite Hk. apply HashTable_init_Ok in Hinit as [_ ->].
    unfold table_keys, table_entries. simpl. rewrite entries_replicate_None.
    simpl. rewrite elem_of_nil. tauto.
Qed.

(** ** Counting and positions *)

Lemma filter_absent (l : list string) k : k ∉ l -> filter (.= k) l = [].
Proof.
  induction l as [|x l IH]; intros Hk; [reflexivity|].
  apply not_elem_of_cons in Hk as [Hne Hk].
  rewrite filter_cons_False by congruence. apply IH, Hk.
Qed.

Lemma NoDup_count_one (l : list string) k :
  NoDup l -> k ∈ l -> length (filter (.= k) l) = 1%nat.
Proof.
  induction l as [|x l IH]; intros Hnd Hin; [inversion Hin|].
  apply NoDup_cons in Hnd as [Hx Hnd].
  destruct (decide (x = k)) as [->|Hne].
  - rewrite filter_cons_True by reflexivity.
    rewrite (filter_absent l k Hx). reflexivity.
  - rewrite filter_cons_False by exact Hne.
    apply IH; [exact Hnd|]. apply elem_of_cons in Hin as [->|Hin];
      [contradiction|exact Hin].
Qed.

Lemma wf_positions st :
  wf st ->
  forall i j p q slot_i slot_j k r1 r2,
    data (self st) !! i = Some slot_i ->
    data (self st) !! j = Some slot_j ->
    chain_entries slot_i !! p = Some (k, r1) ->
    chain_entries slot_j !! q = Some (k, r2) ->
    i = j /\ p = q.
Proof.
  intros Hwf i j p q slot_i slot_j k r1 r2 Hi Hj Hp Hq.
  pose proof (wf_home st Hwf i slot_i k r1 Hi (list_elem_of_lookup_2 _ _ _ Hp)) as Ei.
  pose proof (wf_home st Hwf j slot_j k r2 Hj (list_elem_of_lookup_2 _ _ _ Hq)) as Ej.
  assert (i = j) as <- by congruence. split; [reflexivity|].
  assert (slot_j = slot_i) as -> by congruence.
  pose proof (chain_keys_NoDup _ _ _ (wf_keys st Hwf) Hi) as Hnd.
  eapply (NoDup_lookup _ p q k Hnd); rewrite list_lookup_fmap.
  - rewrite Hp. reflexivity.
  - rewrite Hq. reflexivity.
Qed.

(** * The specification's properties *)

(** C1. Insert-then-search round trip: on a table whose history of inserts
    never had the key K, search(K) after insert(K, N) returns a Contact
    whose name is K and whose number is N. *)
Theorem insert_then_search_roundtrip capacity h0 ops st K N :
  after_inserts capacity h0 ops = Ok st ->
  K ∉ ops.*1 ->
  exists st' r,
    insert K N st = Ok (tt, st') /\
    search K st' = Ok (Some r, st') /\
    heap st' !! r = Some (mkContact K N).
Proof.
  intros Hst Hnew. apply after_inserts_wf in Hst as (Hwf & _ & Hkeys).
  rewrite <- Hkeys in Hnew.
  destruct (wf_insert_new st Hwf K N Hnew) as (slot & slot' & Hslot & Hext & Hrun).
  pose proof (wf_extend st K N slot slot' Hwf Hnew Hslot Hext) as Hwf'.
  eexists. exists (length (heap st)). split; [exact Hrun|].
  destruct (wf_search _ Hwf' K) as (o & Hsearch & Ho & _).
  assert (o = Some (length (heap st))) as ->.
  { apply Ho. rewrite (table_entries_extend (self st) _ slot slot' _ Hslot Hext).
    apply list_elem_of_here. }
  split; [exact Hsearch|]. simpl. apply list_lookup_middle. reflexivity.
Qed.

(** C2. Key uniqueness: a table constructed with a positive capacity
    accepts every sequence of inserts, and afterwards no key occurs twice
    among its entries: two chain positions, in any slots, that hold the
    same key are the same position of the same slot. *)
Theorem key_uniqueness capacity h0 ops :
  0 < capacity ->
  exists st,
    after_inserts capacity h0 ops = Ok st /\
    NoDup (table_keys (self st)) /\
    forall i j p q slot_i slot_j k r1 r2,
      data (self st) !! i = Some slot_i ->
      data (self st) !! j = Some slot_j ->
      chain_entries slot_i !! p = Some (k, r1) ->
      chain_entries slot_j !! q = Some (k, r2) ->
      i = j /\ p = q.
Proof.
  intros Hc. destruct (after_inserts_total capacity h0 ops Hc) as [st Hst].
  exists st. split; [exact Hst|].
  apply after_inserts_wf in Hst as (Hwf & _ & _).
  split; [apply Hwf|apply wf_positions, Hwf].
Qed.

(** C3. Update semantics: insert(K, N2) on a key the table holds leaves
    the table's slots and chains exactly as they are (no new entry, no
    reordering, same entry count) and overwrites the number, and only the
    number, of K's Contact; no other Contact of the store and no Contact
    of another entry changes, and K has exactly one entry, whose Contact
    holds N2. *)
Theorem insert_update capacity h0 ops st K N2 :
  after_inserts capacity h0 ops = Ok st ->
  K ∈ table_keys (self st) ->
  exists st' r c,
    insert K N2 st = Ok (tt, st') /\
    self st' = self st /\
    length (table_entries (self st')) = length (table_entries (self st)) /\
    (K, r) ∈ table_entries (self st') /\
    heap st !! r = Some c /\
    heap st' !! r = Some (mkContact (name c) N2) /\
    name c = K /\
    (forall r' c', r' <> r -> heap st !! r' = Some c' ->
                   heap st' !! r' = Some c') /\
    (forall k' r', (k', r') ∈ table_entries (self st) -> k' <> K ->
                   heap st' !! r' = heap st !! r') /\
    length (filter (.= K) (table_keys (self st'))) = 1%nat /\
    search K st' = Ok (Some r, st').
Proof.
  intros Hst Hin. apply after_inserts_wf in Hst as (Hwf & _ & _).
  pose proof Hin as Hin'.
  apply list_elem_of_fmap in Hin' as ([k r] & Hk & Hin'). simpl in Hk. subst k.
  destruct (wf_insert_present st Hwf K N2 r Hin') as (c & Hc & Hname & Hrun).
  pose proof (wf_update st K N2 r Hwf Hin') as Hwf'.
  eexists. exists r, c. split; [exact Hrun|]. simpl.
  repeat split; try assumption; try reflexivity.
  - rewrite Hname. apply list_lookup_insert_eq. rewrite length_app.
    apply lookup_lt_Some in Hc. lia.
  - intros r' c' Hne Hc'. rewrite list_lookup_insert_ne by congruence.
    apply lookup_app_l_Some, Hc'.
  - intros k' r' Hin'' Hne.
    destruct (wf_ref st Hwf k' r' Hin'') as (c' & Hc' & Hname').
    rewrite list_lookup_insert_ne by congruence.
    rewrite Hc'. apply lookup_app_l_Some, Hc'.
  - apply NoDup_count_one; [apply Hwf|exact Hin].
  - destruct (wf_search _ Hwf' K) as (o & Hsearch & Ho & _).
    assert (o = Some r) as -> by (apply Ho; exact Hin').
    exact Hsearch.
Qed.

(** C7. Not-found contract: on a table filled by inserts, search returns
    normally for every key and leaves the store and the table as they
    are; for a key that was never inserted it returns None. *)
Theorem search_not_found capacity h0 ops st K :
  after_inserts capacity h0 ops = Ok st ->
  (forall K', exists o, search K' st = Ok (o, st)) /\
  (K ∉ ops.*1 -> search K st = Ok (None, st)).
Proof.
  intros Hst. apply after_inserts_wf in Hst as (Hwf & _ & Hkeys). split.
  - intros K'. destruct (wf_search st Hwf K') as (o & Hsearch & _). eauto.
  - intros Hnew. rewrite <- Hkeys in Hnew.
    destruct (wf_search st Hwf K) as (o & Hsearch & _ & Ho).
    apply Ho in Hnew. subst o. exact Hsearch.
Qed.

(** C9. Live handle: the reference that search(K) returns denotes the
    Contact object that the table itself holds; after a later
    insert(K, N2) the same reference reads the number N2, and search(K)
    still returns that reference. *)
Theorem search_handle_alias capacity h0 ops st K r N2 :
  after_inserts capacity h0 ops = Ok st ->
  search K st = Ok (Some r, st) ->
  exists st',
    insert K N2 st = Ok (tt, st') /\
    number <$> heap st' !! r = Some N2 /\
    search K st' = Ok (Some r, st').
Proof.
  intros Hst Hsearch. apply after_inserts_wf in Hst as (Hwf & _ & _).
  destruct (wf_search st Hwf K) as (o & Hsearch' & Ho & _).
  assert (o = Some r) as -> by congruence.
  assert ((K, r) ∈ table_entries (self st)) as Hin by (apply Ho; reflexivity).
  destruct (wf_insert_present st Hwf K N2 r Hin) as (c & Hc & Hname & Hrun).
  pose proof (wf_update st K N2 r Hwf Hin) as Hwf'.
  eexists. split; [exact Hrun|]. simpl. split.
  - rewrite list_lookup_insert_eq; [reflexivity|].
    rewrite length_app. apply lookup_lt_Some in Hc. lia.
  - destruct (wf_search _ Hwf' K) as (o & Hs & Ho' & _).
    assert (o = Some r) as -> by (apply Ho'; exact Hin).
    exact Hs.
Qed.

(** C10. Frame of insert: insert(K, N) keeps the size and the number of
    slots, and every slot at an index other than hash(K) keeps its chain,
    each entry of which keeps its Contact (name and number). *)
Theorem insert_frame capacity h0 ops st K N :
  after_inserts capacity h0 ops = Ok st ->
  exists st' i,
    insert K N st = Ok (tt, st') /\
    hash_function K st = Ok (i, st) /\
    size (self st') = size (self st) /\
    length (data (self st')) = length (data (self st)) /\
    forall j slot,
      Z.of_nat j <> i ->
      data (self st) !! j = Some slot ->
      data (self st') !! j = Some slot /\
      forall k r, (k, r) ∈ chain_entries slot ->
                  heap st' !! r = heap st !! r.
Proof.
  intros Hst. apply after_inserts_wf in Hst as (Hwf & _ & _).
  pose proof (wf_size st Hwf) as Hsz.
  assert (forall j slot k r, data (self st) !! j = Some slot ->
            (k, r) ∈ chain_entries slot -> (r < length (heap st))%nat) as Hvalid.
  { intros j slot k r Hj Hin.
    destruct (wf_ref st Hwf k r) as (c & Hc & _).
    - apply table_entries_elem. eauto.
    - eapply lookup_lt_Some, Hc. }
  destruct (decide (K ∈ table_keys (self st))) as [Hin|Hout].
  - pose proof Hin as Hin'.
    apply list_elem_of_fmap in Hin' as ([k r] & Hk & Hin'). simpl in Hk. subst k.
    destruct (wf_insert_present st Hwf K N r Hin') as (c & Hc & Hname & Hrun).
    eexists. exists (hash_loop 0 K mod size (self st)).
    split; [exact Hrun|]. split; [apply hash_function_run; lia|]. simpl.
    split; [reflexivity|]. split; [reflexivity|].
    intros j slot Hj Hslot. split; [exact Hslot|]. intros k' r' Hin''.
    assert (r' <> r) as Hne.
    { intros ->.
      destruct (wf_ref st Hwf k' r) as (c' & Hc' & Hname');
        [apply table_entries_elem; eauto|].
      assert (k' = K) as -> by congruence.
      pose proof (wf_home st Hwf j slot K r Hslot Hin'') as Hhome.
      apply Hj. rewrite <- Hhome. apply home_index, Hsz. }
    rewrite list_lookup_insert_ne by congruence.
    apply lookup_app_l. eapply Hvalid; eassumption.
  - destruct (wf_insert_new st Hwf K N Hout)
      as (slot0 & slot' & Hslot0 & Hext & Hrun).
    eexists. exists (hash_loop 0 K mod size (self st)).
    split; [exact Hrun|]. split; [apply hash_function_run; lia|]. simpl.
    split; [reflexivity|]. split; [apply length_insert|].
    intros j slot Hj Hslot. split.
    + rewrite list_lookup_insert_ne; [exact Hslot|].
      intros <-. apply Hj, home_index, Hsz.
    + intros k' r' Hin''. apply lookup_app_l. eapply Hvalid; eassumption.
Qed.

(** ** The hash function *)

Lemma hash_loop_sum k : forall total,
  hash_loop total k = total + code_point_sum k.
Proof.
  induction k as [|ch k IH]; intros total.
  - unfold code_point_sum. simpl. lia.
  - simpl hash_loop. rewrite IH. unfold code_point_sum. simpl.
    rewrite <- Z.add_assoc. reflexivity.
Qed.

(** C6. Hash function: on a table of capacity C, hash(K) returns the sum
    of the character codes of K reduced modulo C, an index in [0, C); it
    leaves the state as it is, so that two calls in a row return the same
    index; the empty key hashes to 0. *)
Theorem hash_function_spec st C K :
  size (self st) = C -> 0 < C ->
  exists i,
    hash_function K st = Ok (i, st) /\
    i = code_point_sum K mod C /\
    0 <= i < C /\
    (i1 <- hash_function K ;; i2 <- hash_function K ;; ret (i1, i2)) st
    = Ok ((i, i), st) /\
    hash_function "" st = Ok (0, st).
Proof.
  intros <- HC. exists (hash_loop 0 K mod size (self st)).
  assert (hash_function K st = Ok (hash_loop 0 K mod size (self st), st)) as Hrun
    by (apply hash_function_run; lia).
  split; [exact Hrun|]. split; [rewrite hash_loop_sum; reflexivity|].
  split; [apply Z.mod_pos_bound, HC|]. split.
  - unfold bind. rewrite Hrun, Hrun. reflexivity.
  - rewrite hash_function_run by lia. simpl. rewrite Z.mod_0_l by lia.
    reflexivity.
Qed.

(** ** Two new keys of one slot *)

Lemma insert_two_new st K1 N1 K2 N2 :
  wf st -> K1 <> K2 ->
  home (size (self st)) K1 = home (size (self st)) K2 ->
  K1 ∉ table_keys (self st) -> K2 ∉ table_keys (self st) ->
  exists st2 slot0 slot2,
    (insert K1 N1 ;;; insert K2 N2) st = Ok (tt, st2) /\
    wf st2 /\
    size (self st2) = size (self st) /\
    heap st2 = heap st ++ [mkContact K1 N1; mkContact K2 N2] /\
    data (self st) !! home (size (self st)) K1 = Some slot0 /\
    data (self st2) !! home (size (self st)) K1 = Some slot2 /\
    chain_entries slot2
    = chain_entries slot0
      ++ [(K1, length (heap st)); (K2, S (length (heap st)))].
Proof.
  intros Hwf Hne Hhome Hk1 Hk2.
  destruct (wf_insert_new st Hwf K1 N1 Hk1)
    as (slot0 & slot1 & Hslot0 & Hext1 & Hrun1).
  pose proof (wf_extend st K1 N1 slot0 slot1 Hwf Hk1 Hslot0 Hext1) as Hwf1.
  set (st1 := mkState (heap st ++ [mkContact K1 N1])
                (mkHashTable (size (self st))
                   (<[home (size (self st)) K1 := slot1]> (data (self st)))))
    in *.
  assert (K2 ∉ table_keys (self st1)) as Hk2'.
  { unfold table_keys, st1. simpl self.
    rewrite (table_entries_extend (self st) _ slot0 slot1 _ Hslot0 Hext1).
    simpl. apply not_elem_of_cons. split; [congruence|exact Hk2]. }
  destruct (wf_insert_new st1 Hwf1 K2 N2 Hk2')
    as (slot1' & slot2 & Hslot1 & Hext2 & Hrun2).
  pose proof (wf_extend st1 K2 N2 slot1' slot2 Hwf1 Hk2' Hslot1 Hext2) as Hwf2.
  simpl in Hslot1, Hext2, Hrun2, Hwf2. rewrite <- Hhome in Hslot1, Hrun2, Hwf2.
  rewrite list_lookup_insert_eq in Hslot1 by (eapply lookup_lt_Some, Hslot0).
  injection Hslot1 as <-.
  eexists. exists slot0, slot2. split.
  { unfold bind. rewrite Hrun1. exact Hrun2. }
  split; [exact Hwf2|]. simpl. split; [reflexivity|].
  split; [rewrite <- app_assoc; reflexivity|]. split; [exact Hslot0|].
  split.
  - apply list_lookup_insert_eq. rewrite length_insert.
    eapply lookup_lt_Some, Hslot0.
  - rewrite Hext2, Hext1, <- app_assoc, length_app. simpl.
    rewrite Nat.add_1_r. reflexivity.
Qed.

(** C4 (as amended). Collision handling: when two distinct keys that hash
    to the same index are inserted, neither being in the table before,
    each is found by search with its own number, and the chain of their
    slot is the chain as it was followed by the two new entries in
    insertion order; when the slot was empty, the chain is exactly these
    two entries. *)
Theorem collision_chain_appended capacity h0 ops st K1 N1 K2 N2 :
  after_inserts capacity h0 ops = Ok st ->
  K1 <> K2 ->
  hash_function K1 st = hash_function K2 st ->
  K1 ∉ table_keys (self st) -> K2 ∉ table_keys (self st) ->
  exists st2 r1 r2 i slot0 slot2,
    (insert K1 N1 ;;; insert K2 N2) st = Ok (tt, st2) /\
    search K1 st2 = Ok (Some r1, st2) /\
    heap st2 !! r1 = Some (mkContact K1 N1) /\
    search K2 st2 = Ok (Some r2, st2) /\
    heap st2 !! r2 = Some (mkContact K2 N2) /\
    hash_function K1 st = Ok (Z.of_nat i, st) /\
    data (self st) !! i = Some slot0 /\
    data (self st2) !! i = Some slot2 /\
    chain_entries slot2 = chain_entries slot0 ++ [(K1, r1); (K2, r2)] /\
    (slot0 = None -> chain_entries slot2 = [(K1, r1); (K2, r2)]).
Proof.
  intros Hst Hne Hhash Hk1 Hk2.
  apply after_inserts_wf in Hst as (Hwf & _ & _).
  pose proof (wf_size st Hwf) as Hsz.
  rewrite !hash_function_run in Hhash by lia.
  assert (home (size (self st)) K1 = home (size (self st)) K2) as Hhome.
  { unfold home. congruence. }
  destruct (insert_two_new st K1 N1 K2 N2 Hwf Hne Hhome Hk1 Hk2)
    as (st2 & slot0 & slot2 & Hrun & Hwf2 & Hsz2 & Hheap & Hs0 & Hs2 & Hch).
  exists st2, (length (heap st)), (S (length (heap st))),
    (home (size (self st)) K1), slot0, slot2.
  assert (forall k r, (k, r) ∈ [(K1, length (heap st)); (K2, S (length (heap st)))] ->
            search k st2 = Ok (Some r, st2)) as Hfind.
  { intros k r Hin. destruct (wf_search st2 Hwf2 k) as (o & Hs & Ho & _).
    assert (o = Some r) as -> ; [|exact Hs].
    apply Ho, table_entries_elem. exists (home (size (self st)) K1), slot2.
    split; [exact Hs2|]. rewrite Hch. apply elem_of_app. right. exact Hin. }
  split; [exact Hrun|].
  split; [apply Hfind, list_elem_of_here|].
  split; [rewrite Hheap; apply list_lookup_middle; reflexivity|].
  split; [apply Hfind, list_elem_of_further, list_elem_of_here|].
  split.
  { rewrite Hheap.
    change [mkContact K1 N1; mkContact K2 N2]
      with ([mkContact K1 N1] ++ [mkContact K2 N2]).
    rewrite app_assoc. apply list_lookup_middle.
    rewrite length_app. simpl. lia. }
  split; [rewrite hash_function_run by lia; rewrite home_index by lia; reflexivity|].
  split; [exact Hs0|]. split; [exact Hs2|]. split; [exact Hch|].
  intros ->. exact Hch.
Qed.

(** ** Text and lines *)

Lemma string_app_nil_r s : s +:+ "" = s.
Proof.
  induction s as [|ch s IH]; [reflexivity|].
  change (String ch (s +:+ "") = String ch s). f_equal. exact IH.
Qed.

Lemma string_app_assoc s1 s2 s3 : (s1 +:+ s2) +:+ s3 = s1 +:+ s2 +:+ s3.
Proof.
  induction s1 as [|ch s1 IH]; [reflexivity|].
  change (String ch ((s1 +:+ s2) +:+ s3) = String ch (s1 +:+ s2 +:+ s3)).
  f_equal. exact IH.
Qed.

Lemma has_LF_app s1 s2 : has_LF (s1 +:+ s2) = has_LF s1 || has_LF s2.
Proof.
  induction s1 as [|ch s1 IH]; [reflexivity|].
  change (Ascii.eqb ch (ascii_of_nat 10) || has_LF (s1 +:+ s2)
          = Ascii.eqb ch (ascii_of_nat 10) || has_LF s1 || has_LF s2).
  rewrite IH. apply orb_assoc.
Qed.

Lemma lines_from_line s : forall cur rest,
  has_LF s = false ->
  lines_from cur (s +:+ LF +:+ rest) = (cur +:+ s) :: lines_from "" rest.
Proof.
  induction s as [|ch s IH]; intros cur rest Hs.
  - rewrite string_app_nil_r. reflexivity.
  - simpl in Hs. apply orb_false_iff in Hs as [Hch Hs].
    change (lines_from cur (String ch (s +:+ LF +:+ rest))
            = (cur +:+ String ch s) :: lines_from "" rest).
    simpl lines_from. rewrite Hch, (IH _ _ Hs), string_app_assoc. reflexivity.
Qed.

Lemma has_LF_uint d : has_LF (NilEmpty.string_of_uint d) = false.
Proof. induction d; simpl; trivial. Qed.

Lemma has_LF_str_int i : has_LF (str_int i) = false.
Proof.
  unfold str_int, NilZero.string_of_int, NilZero.string_of_uint.
  destruct (Z.to_int i) as [d|d]; [|simpl]; destruct d; trivial;
    apply (has_LF_uint (_ d)).
Qed.

Lemma has_LF_empty_line i : has_LF (empty_line i) = false.
Proof.
  unfold empty_line. rewrite !has_LF_app, has_LF_str_int. reflexivity.
Qed.

(** ** Printing *)

Lemma print_slot_empty t h i :
  0 <= i < Z.of_nat (length (data t)) ->
  data t !! Z.to_nat i = Some None ->
  print_slot i (mkState h t) = Ok (empty_line i +:+ LF, mkState h t).
Proof.
  intros Hi Hslot. unfold print_slot, bind, data_getitem. simpl.
  rewrite (py_index_in_range _ _ Hi), Hslot. unfold ret, empty_line.
  rewrite !string_app_assoc. reflexivity.
Qed.

Lemma print_slots_empty t h idx :
  (forall i, i ∈ idx -> 0 <= i < Z.of_nat (length (data t)) /\
                        data t !! Z.to_nat i = Some None) ->
  print_slots idx (mkState h t)
  = Ok (foldr (fun i more => (empty_line i +:+ LF) +:+ more) "" idx,
        mkState h t).
Proof.
  induction idx as [|i idx IH]; intros Hidx; [reflexivity|].
  simpl. unfold bind.
  destruct (Hidx i (list_elem_of_here _ _)) as [Hi Hslot].
  rewrite (print_slot_empty t h i Hi Hslot), IH; [reflexivity|].
  intros j Hj. apply Hidx, list_elem_of_further, Hj.
Qed.

Lemma lines_empty_lines idx :
  lines (foldr (fun i more => (empty_line i +:+ LF) +:+ more) "" idx)
  = empty_line <$> idx.
Proof.
  unfold lines. induction idx as [|i idx IH]; [reflexivity|].
  simpl foldr. rewrite string_app_assoc, lines_from_line by apply has_LF_empty_line.
  rewrite IH. reflexivity.
Qed.

Lemma range_elem n i :
  i ∈ range n -> 0 <= i < n /\ (Z.to_nat i < Z.to_nat n)%nat.
Proof.
  unfold range. intros Hin. apply list_elem_of_fmap in Hin as (m & -> & Hm).
  apply elem_of_seq in Hm. lia.
Qed.

(** C5. Construction: a positive capacity C gives a table of size C with
    C slots, all None, and print_table on it writes C lines, line i being
    "Index i: Empty"; a capacity that is zero or negative raises
    ValueError and gives no table. *)
Theorem HashTable_init_construction capacity :
  (0 < capacity ->
   exists t,
     HashTable_init capacity = Ok t /\
     size t = capacity /\
     Z.of_nat (length (data t)) = capacity /\
     (forall slot, slot ∈ data t -> slot = None) /\
     forall h0, exists out,
       print_table (mkState h0 t) = Ok (out, mkState h0 t) /\
       lines out = empty_line <$> range capacity /\
       Z.of_nat (length (lines out)) = capacity) /\
  (capacity <= 0 ->
   exists msg, HashTable_init capacity = Raise (ValueError msg)).
Proof.
  split; intros Hc; unfold HashTable_init.
  - destruct (Z.leb_spec capacity 0); [lia|]. eexists. split; [reflexivity|].
    simpl. split; [reflexivity|]. unfold list_repeat_None.
    split; [rewrite length_replicate; lia|]. split.
    + intros slot Hin. apply elem_of_replicate in Hin as [-> _]. reflexivity.
    + intros h0. eexists. split; [|split].
      * unfold print_table, bind, get_size. simpl.
        apply print_slots_empty. simpl. intros i Hi.
        apply range_elem in Hi as [Hi Hi']. rewrite length_replicate.
        split; [lia|]. apply lookup_replicate_2, Hi'.
      * apply lines_empty_lines.
      * rewrite lines_empty_lines, length_fmap. unfold range.
        rewrite length_fmap, length_seq. lia.
  - destruct (Z.leb_spec capacity 0); [|lia]. eexists. reflexivity.
Qed.

Lemma print_chain_two hd st k1 r1 k2 r2 c1 c2 :
  node_entries hd = [(k1, r1); (k2, r2)] ->
  heap st !! r1 = Some c1 -> heap st !! r2 = Some c2 ->
  print_chain hd st
  = Ok ("- " +:+ (name c1 +:+ ": " +:+ number c1) +:+ " "
        +:+ "- " +:+ (name c2 +:+ ": " +:+ number c2) +:+ " " +:+ "",
        st).
Proof.
  destruct hd as [k v [[k' v' [n|]]|]]; simpl; try discriminate.
  - destruct n as [? ? [?|]]; discriminate.
  - intros [= -> -> -> ->] Hc1 Hc2.
    unfold bind, Contact_str, ret. rewrite Hc1, Hc2. reflexivity.
Qed.

(** C8 (as amended). The pinned scenario: "Amy" and "May" have the same
    sum of character codes, so on any table they hash to one index; when
    they are inserted, in this order, while that slot is empty, the chain
    of the slot is Amy then May, and print_table writes for it
    "- Amy: 111-222-3333 - May: 222-333-1111 ", every Contact, the last
    one too, being followed by one space. *)
Theorem Amy_May_chain capacity h0 ops st :
  after_inserts capacity h0 ops = Ok st ->
  data (self st) !! home (size (self st)) "Amy" = Some None ->
  exists st2 i hd,
    (insert "Amy" "111-222-3333" ;;; insert "May" "222-333-1111") st
    = Ok (tt, st2) /\
    code_point_sum "Amy" = code_point_sum "May" /\
    hash_function "Amy" st2 = Ok (i, st2) /\
    hash_function "May" st2 = Ok (i, st2) /\
    data_getitem i st2 = Ok (Some hd, st2) /\
    (node_entries hd).*1 = ["Amy"; "May"] /\
    print_chain hd st2
    = Ok ("- Amy: 111-222-3333 - May: 222-333-1111 ", st2) /\
    print_slot i st2
    = Ok ("Index " +:+ str_int i
          +:+ ": - Amy: 111-222-3333 - May: 222-333-1111 " +:+ LF, st2).
Proof.
  intros Hst Hempty. apply after_inserts_wf in Hst as (Hwf & _ & _).
  assert (hash_loop 0 "May" = hash_loop 0 "Amy") as Hsum by reflexivity.
  assert (home (size (self st)) "Amy" = home (size (self st)) "May") as Hhome
    by (unfold home; rewrite Hsum; reflexivity).
  assert ("Amy" ∉ table_keys (self st)) as Hk1
    by (apply (wf_lookup_home_None st Hwf _ None Hempty); reflexivity).
  assert ("May" ∉ table_keys (self st)) as Hk2.
  { rewrite Hhome in Hempty.
    apply (wf_lookup_home_None st Hwf _ None Hempty); reflexivity. }
  destruct (insert_two_new st "Amy" "111-222-3333" "May" "222-333-1111"
              Hwf ltac:(discriminate) Hhome Hk1 Hk2)
    as (st2 & slot0 & slot2 & Hrun & Hwf2 & Hsz2 & Hheap & Hs0 & Hs2 & Hch).
  assert (slot0 = None) as -> by congruence. simpl in Hch.
  destruct slot2 as [hd|]; [|discriminate]. simpl in Hch.
  pose proof (wf_size st2 Hwf2) as Hpos. pose proof (wf_len st2 Hwf2) as Hlen.
  rewrite <- Hsz2 in Hs2.
  assert (data_getitem (hash_loop 0 "Amy" mod size (self st2)) st2
          = Ok (Some hd, st2)) as Hget.
  { pose proof (data_getitem_home (self st2) Hpos Hlen "Amy" (Some hd)
                  (heap st2) Hs2) as Hget.
    destruct st2; exact Hget. }
  assert (print_chain hd st2
          = Ok ("- Amy: 111-222-3333 - May: 222-333-1111 ", st2)) as Hprint.
  { rewrite (print_chain_two hd st2 _ _ _ _
               (mkContact "Amy" "111-222-3333") (mkContact "May" "222-333-1111")
               Hch).
    - reflexivity.
    - rewrite Hheap. apply list_lookup_middle. reflexivity.
    - rewrite Hheap.
      change [mkContact "Amy" "111-222-3333"; mkContact "May" "222-333-1111"]
        with ([mkContact "Amy" "111-222-3333"]
              ++ [mkContact "May" "222-333-1111"]).
      rewrite app_assoc. apply list_lookup_middle.
      rewrite length_app. simpl. lia. }
  exists st2, (hash_loop 0 "Amy" mod size (self st2)), hd.
  split; [exact Hrun|]. split; [reflexivity|].
  split; [apply hash_function_run; lia|].
  split; [rewrite hash_function_run by lia; rewrite Hsum; reflexivity|].
  split; [exact Hget|]. split; [rewrite Hch; reflexivity|].
  split; [exact Hprint|].
  unfold print_slot, bind. rewrite Hget, Hprint. reflexivity.
Qed.

(** ** Counterexamples to the two statements as the specification words them *)

Ltac absent_key :=
  let H := fresh in
  vm_compute; intros H;
  repeat (apply elem_of_cons in H as [H|H]; [discriminate H|]);
  inversion H.

Ltac present_key := vm_compute; repeat constructor.

(** C4, as stated, fails: in a table of one slot that holds "a", the keys
    "b" and "c" are new and hash to the index of "a"; after both inserts
    the chain has three entries, "a" at its head. *)
Lemma collision_claim_counterexample : ~ collision_claim_as_stated.
Proof.
  intros H.
  destruct (H 1 [] [("a", "0")]
              (state_or_empty (after_inserts 1 [] [("a", "0")]))
              "b" "1" "c" "2")
    as (st2 & r1 & r2 & i & slot2 & Hrun & _ & _ & _ & _ & Hi & Hslot & Hch).
  - reflexivity.
  - discriminate.
  - reflexivity.
  - absent_key.
  - absent_key.
  - vm_compute in Hrun. injection Hrun as <-.
    vm_compute in Hi. destruct i; [|discriminate Hi].
    vm_compute in Hslot. injection Hslot as <-.
    discriminate Hch.
Qed.

(** C8, as stated, fails: on a new table of 10 slots the text written for
    the chain of Amy and May ends with a space, which the stated text
    lacks. *)
Lemma Amy_May_rendering_counterexample :
  ~ Amy_May_rendering "- Amy: 111-222-3333 - May: 222-333-1111".
Proof.
  intros H.
  destruct (H 10 [] [] (state_or_empty (after_inserts 10 [] [])))
    as (st2 & i & hd & Hrun & Hi & _ & Hget & Hprint).
  - reflexivity.
  - reflexivity.
  - vm_compute in Hrun. injection Hrun as <-.
    vm_compute in Hi. injection Hi as <-.
    vm_compute in Hget. injection Hget as <-.
    vm_compute in Hprint. discriminate Hprint.
Qed.

(** ** The properties at the driver's table *)

Example driver_state_reached : after_inserts 10 [] driver_ops = Ok driver_state.
Proof. reflexivity. Qed.

Example driver_print_table :
  exists out,
    print_table driver_state_Amy_May = Ok (out, driver_state_Amy_May) /\
    lines out
    = ["Index 0: Empty"; "Index 1: Empty"; "Index 2: Empty"; "Index 3: Empty";
       "Index 4: Empty"; "Index 5: - Amy: 111-222-3333 - May: 222-333-1111 ";
       "Index 6: Empty"; "Index 7: - Rebecca: 111-555-0002 "; "Index 8: Empty";
       "Index 9: - John: 909-876-1234 "].
Proof. eexists. split; reflexivity. Qed.

Lemma insert_then_search_roundtrip_witness :
  exists st' r,
    insert "Amy" "111-222-3333" driver_state = Ok (tt, st') /\
    search "Amy" st' = Ok (Some r, st') /\
    heap st' !! r = Some (mkContact "Amy" "111-222-3333").
Proof.
  apply (insert_then_search_roundtrip 10 [] driver_ops);
    [reflexivity|absent_key].
Defined.

Lemma key_uniqueness_witness :
  exists st,
    after_inserts 10 [] driver_ops = Ok st /\
    NoDup (table_keys (self st)) /\
    forall i j p q slot_i slot_j k r1 r2,
      data (self st) !! i = Some slot_i ->
      data (self st) !! j = Some slot_j ->
      chain_entries slot_i !! p = Some (k, r1) ->
      chain_entries slot_j !! q = Some (k, r2) ->
      i = j /\ p = q.
Proof. apply (key_uniqueness 10 [] driver_ops). lia. Defined.

Lemma insert_update_witness :
  exists st' r c,
    insert "Rebecca" "999-444-9999" driver_state = Ok (tt, st') /\
    self st' = self driver_state /\
    length (table_entries (self st')) = length (table_entries (self driver_state)) /\
    ("Rebecca", r) ∈ table_entries (self st') /\
    heap driver_state !! r = Some c /\
    heap st' !! r = Some (mkContact (name c) "999-444-9999") /\
    name c = "Rebecca" /\
    (forall r' c', r' <> r -> heap driver_state !! r' = Some c' ->
                   heap st' !! r' = Some c') /\
    (forall k' r', (k', r') ∈ table_entries (self driver_state) ->
                   k' <> "Rebecca" ->
                   heap st' !! r' = heap driver_state !! r') /\
    length (filter (.= "Rebecca") (table_keys (self st'))) = 1%nat /\
    search "Rebecca" st' = Ok (Some r, st').
Proof.
  apply (insert_update 10 [] driver_ops); [reflexivity|present_key].
Defined.

Lemma collision_chain_appended_witness :
  exists st2 r1 r2 i slot0 slot2,
    (insert "Amy" "111-222-3333" ;;; insert "May" "222-333-1111") driver_state
    = Ok (tt, st2) /\
    search "Amy" st2 = Ok (Some r1, st2) /\
    heap st2 !! r1 = Some (mkContact "Amy" "111-222-3333") /\
    search "May" st2 = Ok (Some r2, st2) /\
    heap st2 !! r2 = Some (mkContact "May" "222-333-1111") /\
    hash_function "Amy" driver_state = Ok (Z.of_nat i, driver_state) /\
    data (self driver_state) !! i = Some slot0 /\
    data (self st2) !! i = Some slot2 /\
    chain_entries slot2 = chain_entries slot0 ++ [("Amy", r1); ("May", r2)] /\
    (slot0 = None -> chain_entries slot2 = [("Amy", r1); ("May", r2)]).
Proof.
  apply (collision_chain_appended 10 [] driver_ops);
    [reflexivity|discriminate|reflexivity|absent_key|absent_key].
Defined.

Lemma HashTable_init_construction_witness :
  (exists t,
     HashTable_init 10 = Ok t /\
     size t = 10 /\
     Z.of_nat (length (data t)) = 10 /\
     (forall slot, slot ∈ data t -> slot = None) /\
     forall h0, exists out,
       print_table (mkState h0 t) = Ok (out, mkState h0 t) /\
       lines out = empty_line <$> range 10 /\
       Z.of_nat (length (lines out)) = 10) /\
  (exists msg, HashTable_init 0 = Raise (ValueError msg)).
Proof.
  split; [apply (proj1 (HashTable_init_construction 10))
        |apply (proj2 (HashTable_init_construction 0))]; lia.
Defined.

Lemma hash_function_spec_witness :
  exists i,
    hash_function "John" driver_state = Ok (i, driver_state) /\
    i = code_point_sum "John" mod 10 /\
    0 <= i < 10 /\
    (i1 <- hash_function "John" ;; i2 <- hash_function "John" ;; ret (i1, i2))
      driver_state
    = Ok ((i, i), driver_state) /\
    hash_function "" driver_state = Ok (0, driver_state).
Proof. apply (hash_function_spec driver_state 10 "John"); [reflexivity|lia]. Defined.

Lemma search_not_found_witness :
  (forall K', exists o, search K' driver_state = Ok (o, driver_state)) /\
  search "Chris" driver_state = Ok (None, driver_state).
Proof.
  destruct (search_not_found 10 [] driver_ops driver_state "Chris" eq_refl)
    as [Hany Hnone].
  split; [exact Hany|apply Hnone; absent_key].
Defined.

Lemma Amy_May_chain_witness :
  exists st2 i hd,
    (insert "Amy" "111-222-3333" ;;; insert "May" "222-333-1111") driver_state
    = Ok (tt, st2) /\
    code_point_sum "Amy" = code_point_sum "May" /\
    hash_function "Amy" st2 = Ok (i, st2) /\
    hash_function "May" st2 = Ok (i, st2) /\
    data_getitem i st2 = Ok (Some hd, st2) /\
    (node_entries hd).*1 = ["Amy"; "May"] /\
    print_chain hd st2
    = Ok ("- Amy: 111-222-3333 - May: 222-333-1111 ", st2) /\
    print_slot i st2
    = Ok ("Index " +:+ str_int i
          +:+ ": - Amy: 111-222-3333 - May: 222-333-1111 " +:+ LF, st2).
Proof. apply (Amy_May_chain 10 [] driver_ops); reflexivity. Defined.

Lemma search_handle_alias_witness :
  exists st',
    insert "John" "000-000-0000" driver_state = Ok (tt, st') /\
    number <$> heap st' !! 0%nat = Some "000-000-0000" /\
    search "John" st' = Ok (Some 0%nat, st').
Proof.
  apply (search_handle_alias 10 [] driver_ops); reflexivity.
Defined.

Lemma insert_frame_witness :
  exists st' i,
    insert "Amy" "111-222-3333" driver_state = Ok (tt, st') /\
    hash_function "Amy" driver_state = Ok (i, driver_state) /\
    size (self st') = size (self driver_state) /\
    length (data (self st')) = length (data (self driver_state)) /\
    forall j slot,
      Z.of_nat j <> i ->
      data (self driver_state) !! j = Some slot ->
      data (self st') !! j = Some slot /\
      forall k r, (k, r) ∈ chain_entries slot ->
                  heap st' !! r = heap driver_state !! r.
Proof. apply (insert_frame 10 [] driver_ops). reflexivity. Defined.

(** * Further properties of the code *)

(** ** What one insert does to a table that satisfies the invariant *)

Lemma insert_effect st k n :
  wf st ->
  exists st' r,
    insert k n st = Ok (tt, st') /\
    wf st' /\
    size (self st') = size (self st) /\
    length (heap st') = S (length (heap st)) /\
    heap st' !! r = Some (mkContact k n) /\
    (forall e, e ∈ table_entries (self st') <->
               e = (k, r) \/ e ∈ table_entries (self st)) /\
    (forall k' r', (k', r') ∈ table_entries (self st) -> k' <> k ->
                   heap st' !! r' = heap st !! r') /\
    (forall r' c, heap st !! r' = Some c ->
                  (forall k', (k', r') ∉ table_entries (self st)) ->
                  heap st' !! r' = Some c) /\
    (k ∈ table_keys (self st) ->
     self st' = self st /\ (k, r) ∈ table_entries (self st)) /\
    (k ∉ table_keys (self st) ->
     r = length (heap st) /\
     exists slot slot',
       data (self st) !! home (size (self st)) k = Some slot /\
       chain_entries slot' = chain_entries slot ++ [(k, r)] /\
       data (self st') = <[home (size (self st)) k := slot']> (data (self st))).
Proof.
  intros Hwf.
  assert (forall k' r', (k', r') ∈ table_entries (self st) ->
            (r' < length (heap st))%nat) as Hvalid.
  { intros k' r' Hin. destruct (wf_ref st Hwf k' r' Hin) as (c & Hc & _).
    eapply lookup_lt_Some, Hc. }
  destruct (decide (k ∈ table_keys (self st))) as [Hin|Hout].
  - pose proof Hin as Hin'.
    apply list_elem_of_fmap in Hin' as ([k0 r] & Hk & Hin'). simpl in Hk. subst k0.
    destruct (wf_insert_present st Hwf k n r Hin') as (c & Hc & Hname & Hrun).
    eexists. exists r. split; [exact Hrun|]. simpl.
    split; [apply wf_update; assumption|]. split; [reflexivity|].
    split; [rewrite length_insert, length_app; simpl; lia|].
    split.
    { apply list_lookup_insert_eq. rewrite length_app.
      apply lookup_lt_Some in Hc. lia. }
    split.
    { intros e. split; [auto|]. intros [->|He]; assumption. }
    split.
    { intros k' r' Hin'' Hne.
      destruct (wf_ref st Hwf k' r' Hin'') as (c' & Hc' & Hname').
      rewrite list_lookup_insert_ne by congruence.
      rewrite Hc'. apply lookup_app_l_Some, Hc'. }
    split.
    { intros r' c' Hc' Hfree. rewrite list_lookup_insert_ne.
      - apply lookup_app_l_Some, Hc'.
      - intros <-. apply (Hfree k), Hin'. }
    split; [intros _; split; [reflexivity|exact Hin']|].
    intros Hout. contradiction.
  - destruct (wf_insert_new st Hwf k n Hout)
      as (slot & slot' & Hslot & Hext & Hrun).
    pose proof (table_entries_extend (self st) _ slot slot' _ Hslot Hext) as Hperm.
    eexists. exists (length (heap st)). split; [exact Hrun|]. simpl.
    split; [eapply wf_extend; eassumption|]. split; [reflexivity|].
    split; [rewrite length_app; simpl; lia|].
    split; [apply list_lookup_middle; reflexivity|].
    split.
    { intros e. rewrite Hperm. apply elem_of_cons. }
    split.
    { intros k' r' Hin' _. apply lookup_app_l. eapply Hvalid, Hin'. }
    split.
    { intros r' c' Hc' _. apply lookup_app_l_Some, Hc'. }
    split; [intros Hin; contradiction|].
    intros _. split; [reflexivity|]. exists slot, slot'. auto.
Qed.

(** ** Histories, one insert at a time *)

Lemma inserts_app a : forall b st,
  inserts (a ++ b) st = (inserts a ;;; inserts b) st.
Proof.
  induction a as [|[k n] a IH]; intros b st; [reflexivity|].
  simpl. unfold bind.
  destruct (insert k n st) as [[[] st1]|e]; [|reflexivity].
  rewrite IH. reflexivity.
Qed.

Lemma after_inserts_snoc capacity h0 ops k n st' :
  after_inserts capacity h0 (ops ++ [(k, n)]) = Ok st' ->
  exists st, after_inserts capacity h0 ops = Ok st /\
             insert k n st = Ok (tt, st').
Proof.
  unfold after_inserts. destruct (HashTable_init capacity) as [t|e]; [|discriminate].
  rewrite inserts_app. unfold bind at 1.
  destruct (inserts ops (mkState h0 t)) as [[[] st]|e]; [|discriminate].
  simpl. unfold bind, ret.
  destruct (insert k n st) as [[[] st1]|e] eqn:Hrun; [|discriminate].
  intros [= <-]. exists st. split; [reflexivity|exact Hrun].
Qed.

(** Induction on the history of a table. *)
Lemma after_inserts_ind capacity h0 (P : list (string * string) -> State -> Prop) :
  (forall t, HashTable_init capacity = Ok t -> P [] (mkState h0 t)) ->
  (forall ops st k n st',
      after_inserts capacity h0 ops = Ok st -> P ops st ->
      insert k n st = Ok (tt, st') -> P (ops ++ [(k, n)]) st') ->
  forall ops st, after_inserts capacity h0 ops = Ok st -> P ops st.
Proof.
  intros Hnew Hstep ops. induction ops as [|[k n] ops IH] using rev_ind;
    intros st Hst.
  - unfold after_inserts in Hst.
    destruct (HashTable_init capacity) as [t|e] eqn:Hinit; [|discriminate].
    simpl in Hst. injection Hst as <-. apply Hnew. reflexivity.
  - destruct (after_inserts_snoc _ _ _ _ _ _ Hst) as (st0 & Hst0 & Hrun).
    eapply Hstep; eauto.
Qed.

(** ** Searching after an insert *)

Lemma insert_same_key st K N st' :
  wf st -> insert K N st = Ok (tt, st') ->
  exists r, search K st' = Ok (Some r, st') /\
            heap st' !! r = Some (mkContact K N).
Proof.
  intros Hwf Hrun.
  destruct (insert_effect st K N Hwf)
    as (st1 & r & Hrun1 & Hwf1 & _ & _ & Hr & Hent & _).
  assert (st1 = st') as -> by congruence.
  exists r. split; [|exact Hr].
  destruct (wf_search st' Hwf1 K) as (o & Hs & Ho & _).
  assert (o = Some r) as -> by (apply Ho, Hent; left; reflexivity).
  exact Hs.
Qed.

Lemma insert_other_key st K N st' K' o :
  wf st -> K' <> K -> insert K N st = Ok (tt, st') ->
  search K' st = Ok (o, st) ->
  search K' st' = Ok (o, st') /\
  forall r, o = Some r -> heap st' !! r = heap st !! r.
Proof.
  intros Hwf Hne Hrun Hsearch.
  destruct (insert_effect st K N Hwf)
    as (st1 & r & Hrun1 & Hwf1 & _ & _ & _ & Hent & Hother & _).
  assert (st1 = st') as -> by congruence.
  destruct (wf_search st Hwf K') as (o0 & Hs0 & Ho0 & Hn0).
  assert (o0 = o) as -> by congruence.
  destruct (wf_search st' Hwf1 K') as (o' & Hs' & Ho' & Hn').
  assert (o' = o) as ->.
  { destruct o as [r'|].
    - apply Ho', Hent. right. apply Ho0. reflexivity.
    - apply Hn'. intros Hin.
      apply list_elem_of_fmap in Hin as ([k r'] & Hk & Hin). simpl in Hk. subst k.
      apply Hent in Hin as [[= ? ?]|Hin]; [congruence|].
      assert (K' ∉ table_keys (self st)) as Hout by (apply Hn0; reflexivity).
      apply Hout. apply (list_elem_of_fmap_2 fst _ (K', r')). exact Hin. }
  split; [exact Hs'|]. intros r' ->.
  apply (Hother K' r'); [apply Ho0; reflexivity|exact Hne].
Qed.

(** X2. An insert of K leaves every other key as it was: search(K') for
    K' different from K returns what it returned before (the same
    reference, or None), and the Contact it refers to is unchanged, also
    when K' shares the slot of K. *)
Theorem insert_keeps_other_keys capacity h0 ops st K N K' o :
  after_inserts capacity h0 ops = Ok st ->
  K' <> K ->
  search K' st = Ok (o, st) ->
  exists st',
    insert K N st = Ok (tt, st') /\
    search K' st' = Ok (o, st') /\
    forall r, o = Some r -> heap st' !! r = heap st !! r.
Proof.
  intros Hst Hne Hsearch. apply after_inserts_wf in Hst as (Hwf & _ & _).
  destruct (insert_wf st K N Hwf) as (st' & Hrun & _).
  exists st'. split; [exact Hrun|].
  eapply insert_other_key; eassumption.
Qed.

Lemma inserts_keep_entry K r ops' : forall st,
  wf st -> (K, r) ∈ table_entries (self st) ->
  exists st',
    inserts ops' st = Ok (tt, st') /\ wf st' /\
    (K, r) ∈ table_entries (self st') /\
    (K ∉ ops'.*1 -> heap st' !! r = heap st !! r).
Proof.
  induction ops' as [|[k n] ops' IH]; intros st Hwf Hin.
  - exists st. split; [reflexivity|]. split; [exact Hwf|].
    split; [exact Hin|]. reflexivity.
  - destruct (insert_effect st k n Hwf)
      as (st1 & r1 & Hrun1 & Hwf1 & _ & _ & _ & Hent & Hother & _).
    assert ((K, r) ∈ table_entries (self st1)) as Hin1 by (apply Hent; auto).
    destruct (IH st1 Hwf1 Hin1) as (st2 & Hrun2 & Hwf2 & Hin2 & Hsame).
    exists st2. split; [simpl; unfold bind; rewrite Hrun1; exact Hrun2|].
    split; [exact Hwf2|]. split; [exact Hin2|].
    simpl. intros Hout. apply not_elem_of_cons in Hout as [Hne Hout].
    rewrite (Hsame Hout). apply (Hother K r Hin Hne).
Qed.

(** X3. A reference returned by search stays the key's reference: after
    any further inserts, search(K) returns the same reference, the
    Contact there still has the name K, and when none of the further
    inserts is for K the Contact is unchanged. *)
Theorem search_handle_stable capacity h0 ops st K r ops' :
  after_inserts capacity h0 ops = Ok st ->
  search K st = Ok (Some r, st) ->
  exists st',
    inserts ops' st = Ok (tt, st') /\
    search K st' = Ok (Some r, st') /\
    name <$> heap st' !! r = Some K /\
    (K ∉ ops'.*1 -> heap st' !! r = heap st !! r).
Proof.
  intros Hst Hsearch. apply after_inserts_wf in Hst as (Hwf & _ & _).
  destruct (wf_search st Hwf K) as (o & Hs & Ho & _).
  assert (o = Some r) as -> by congruence.
  assert ((K, r) ∈ table_entries (self st)) as Hin by (apply Ho; reflexivity).
  destruct (inserts_keep_entry K r ops' st Hwf Hin)
    as (st' & Hrun & Hwf' & Hin' & Hsame).
  exists st'. split; [exact Hrun|].
  destruct (wf_search st' Hwf' K) as (o' & Hs' & Ho' & _).
  assert (o' = Some r) as -> by (apply Ho'; exact Hin').
  split; [exact Hs'|]. split; [|exact Hsame].
  destruct (wf_ref st' Hwf' K r Hin') as (c & Hc & Hname).
  rewrite Hc. simpl. congruence.
Qed.

(** ** The table as a map from names to numbers *)

Lemma contents_of_ops_snoc ops k n :
  contents_of_ops (ops ++ [(k, n)]) = <[k := n]> (contents_of_ops ops).
Proof. unfold contents_of_ops. rewrite foldl_app. reflexivity. Qed.

Lemma contents_of_ops_Some ops k n :
  contents_of_ops ops !! k = Some n -> (k, n) ∈ ops.
Proof.
  induction ops as [|[k' n'] ops IH] using rev_ind.
  - unfold contents_of_ops. simpl. rewrite lookup_empty. discriminate.
  - rewrite contents_of_ops_snoc. intros Hl. apply elem_of_app.
    apply lookup_insert_Some in Hl as [[-> ->]|[Hne Hl]].
    + right. apply list_elem_of_here.
    + left. apply IH, Hl.
Qed.

Lemma search_contents capacity h0 ops st :
  after_inserts capacity h0 ops = Ok st ->
  forall K,
    match contents_of_ops ops !! K with
    | Some N => exists r, search K st = Ok (Some r, st) /\
                          heap st !! r = Some (mkContact K N)
    | None => search K st = Ok (None, st)
    end.
Proof.
  revert ops st.
  apply (after_inserts_ind capacity h0
           (fun ops st => forall K,
              match contents_of_ops ops !! K with
              | Some N => exists r, search K st = Ok (Some r, st) /\
                                    heap st !! r = Some (mkContact K N)
              | None => search K st = Ok (None, st)
              end)).
  - intros t Hinit K. unfold contents_of_ops. simpl. rewrite lookup_empty.
    pose proof (fresh_wf _ h0 _ Hinit) as Hwf.
    destruct (wf_search _ Hwf K) as (o & Hs & _ & Hn).
    assert (o = None) as -> ; [|exact Hs].
    apply Hn. apply HashTable_init_Ok in Hinit as [_ ->].
    unfold table_keys, table_entries. simpl. rewrite entries_replicate_None.
    apply not_elem_of_nil.
  - intros ops st k n st' Hst IH Hrun K.
    apply after_inserts_wf in Hst as (Hwf & _ & _).
    rewrite contents_of_ops_snoc.
    destruct (decide (K = k)) as [->|Hne].
    + rewrite lookup_insert_eq. eapply insert_same_key; eassumption.
    + rewrite lookup_insert_ne by congruence. specialize (IH K).
      destruct (contents_of_ops ops !! K) as [N|].
      * destruct IH as (r & Hs & Hr). exists r.
        destruct (insert_other_key st k n st' K (Some r) Hwf Hne Hrun Hs)
          as [Hs' Hsame].
        split; [exact Hs'|]. rewrite (Hsame r eq_refl). exact Hr.
      * apply (insert_other_key st k n st' K None Hwf Hne Hrun IH).
Qed.

(** X1. The table is a map from names to numbers: after any sequence of
    inserts, search(K) returns a Contact with name K and number N exactly
    when N is the number of the last insert of K, and None when K was
    never inserted. *)
Theorem search_agrees_with_map capacity h0 ops st K :
  after_inserts capacity h0 ops = Ok st ->
  match contents_of_ops ops !! K with
  | Some N => exists r, search K st = Ok (Some r, st) /\
                        heap st !! r = Some (mkContact K N)
  | None => search K st = Ok (None, st)
  end.
Proof. intros Hst. apply (search_contents capacity h0 ops st Hst). Qed.

(** ** The layout of a table *)

Lemma first_occurrences_snoc l k :
  first_occurrences (l ++ [k])
  = if decide (k ∈ first_occurrences l) then first_occurrences l
    else first_occurrences l ++ [k].
Proof. unfold first_occurrences. rewrite foldl_app. reflexivity. Qed.

Lemma elem_of_first_occurrences l k : k ∈ first_occurrences l <-> k ∈ l.
Proof.
  induction l as [|x l IH] using rev_ind.
  - reflexivity.
  - rewrite first_occurrences_snoc, elem_of_app, list_elem_of_singleton.
    destruct (decide (x ∈ first_occurrences l)) as [Hx|Hx].
    + rewrite IH. split; [auto|]. intros [H| ->]; [exact H|]. apply IH, Hx.
    + rewrite elem_of_app, list_elem_of_singleton, IH. reflexivity.
Qed.

Lemma NoDup_first_occurrences l : NoDup (first_occurrences l).
Proof.
  induction l as [|x l IH] using rev_ind.
  - apply NoDup_nil_2.
  - rewrite first_occurrences_snoc.
    destruct (decide (x ∈ first_occurrences l)) as [Hx|Hx]; [exact IH|].
    apply NoDup_app. split; [exact IH|]. split; [|apply NoDup_singleton].
    intros y Hy Hy'. apply list_elem_of_singleton in Hy'. subst y. contradiction.
Qed.

Lemma chain_keys_history capacity h0 ops st :
  after_inserts capacity h0 ops = Ok st ->
  forall i slot,
    data (self st) !! i = Some slot ->
    (chain_entries slot).*1
    = filter (fun k => home capacity k = i) (first_occurrences ops.*1).
Proof.
  revert ops st.
  apply (after_inserts_ind capacity h0
           (fun ops st => forall i slot,
              data (self st) !! i = Some slot ->
              (chain_entries slot).*1
              = filter (fun k => home capacity k = i)
                  (first_occurrences ops.*1))).
  - intros t Hinit i slot Hi. apply HashTable_init_Ok in Hinit as [_ ->].
    simpl in Hi. apply lookup_replicate in Hi as [-> _]. reflexivity.
  - intros ops st k n st' Hst IH Hrun i slot Hi.
    apply after_inserts_wf in Hst as (Hwf & Hsz & Hkeys).
    destruct (insert_effect st k n Hwf)
      as (st1 & r & Hrun1 & _ & _ & _ & _ & _ & _ & _ & Hold & Hnew).
    assert (st1 = st') as -> by congruence.
    rewrite fmap_app. simpl. rewrite first_occurrences_snoc.
    destruct (decide (k ∈ first_occurrences ops.*1)) as [Hk|Hk];
      rewrite elem_of_first_occurrences, <- Hkeys in Hk.
    + destruct (Hold Hk) as [Hself _]. rewrite Hself in Hi. apply IH, Hi.
    + destruct (Hnew Hk) as (-> & slot0 & slot' & Hslot0 & Hext & Hdata).
      rewrite Hdata, Hsz in Hi. rewrite Hsz in Hslot0. rewrite filter_app.
      destruct (decide (home capacity k = i)) as [<-|Hne].
      * rewrite list_lookup_insert_eq in Hi by (eapply lookup_lt_Some, Hslot0).
        injection Hi as <-. rewrite Hext, fmap_app, (IH _ _ Hslot0).
        rewrite (filter_cons_True _ k []) by reflexivity. reflexivity.
      * rewrite list_lookup_insert_ne in Hi by exact Hne.
        rewrite (filter_cons_False _ k []) by exact Hne.
        rewrite filter_nil, app_nil_r. apply IH, Hi.
Qed.

(** X4. The chain of slot i holds exactly the distinct inserted keys that
    hash to i, in the order in which each was inserted first; a later
    insert of a key does not move it. *)
Theorem chain_order_first_insertion capacity h0 ops st i slot :
  after_inserts capacity h0 ops = Ok st ->
  data (self st) !! i = Some slot ->
  (chain_entries slot).*1
  = filter (fun k => home capacity k = i) (first_occurrences ops.*1).
Proof. intros Hst. apply (chain_keys_history capacity h0 ops st Hst). Qed.

(** X5. The number of entries of the table is the number of distinct keys
    inserted: an insert adds an entry for a new key only, and no entry is
    ever removed. *)
Theorem entry_count_distinct_keys capacity h0 ops st :
  after_inserts capacity h0 ops = Ok st ->
  length (table_entries (self st)) = length (first_occurrences ops.*1).
Proof.
  intros Hst. apply after_inserts_wf in Hst as (Hwf & _ & Hkeys).
  rewrite <- (length_fmap fst). apply Permutation_length.
  apply NoDup_Permutation.
  - apply (wf_keys st Hwf).
  - apply NoDup_first_occurrences.
  - intros k. rewrite elem_of_first_occurrences. apply Hkeys.
Qed.

(** X6. Every entry sits in the slot that its key hashes to, and the
    Contact it refers to carries the key as its name. *)
Theorem entry_in_hash_slot capacity h0 ops st i slot k r :
  after_inserts capacity h0 ops = Ok st ->
  data (self st) !! i = Some slot ->
  (k, r) ∈ chain_entries slot ->
  hash_function k st = Ok (Z.of_nat i, st) /\
  exists c, heap st !! r = Some c /\ name c = k.
Proof.
  intros Hst Hi Hin. apply after_inserts_wf in Hst as (Hwf & _ & _).
  pose proof (wf_size st Hwf) as Hsz. split.
  - rewrite hash_function_run by lia.
    rewrite <- (wf_home st Hwf i slot k r Hi Hin), home_index by lia.
    reflexivity.
  - apply (wf_ref st Hwf). apply table_entries_elem. eauto.
Qed.

(** ** Keys with the same characters *)

Lemma code_point_sum_Permutation (l1 l2 : list ascii) :
  l1 ≡ₚ l2 -> foldr Z.add 0 (ord <$> l1) = foldr Z.add 0 (ord <$> l2).
Proof.
  induction 1 as [|x l l' _ IH|x y l|l l' l'' _ IH1 _ IH2].
  - reflexivity.
  - rewrite !fmap_cons. cbn [foldr]. rewrite IH. reflexivity.
  - rewrite !fmap_cons. cbn [foldr].
    rewrite !Z.add_assoc, (Z.add_comm (ord y)). reflexivity.
  - rewrite IH1. exact IH2.
Qed.

(** X7. Keys made of the same characters in another order collide: the
    hash function gives them the same index on every table. *)
Theorem hash_function_anagram st k1 k2 :
  list_ascii_of_string k1 ≡ₚ list_ascii_of_string k2 ->
  hash_function k1 st = hash_function k2 st.
Proof.
  intros Hperm. unfold hash_function.
  rewrite !hash_loop_sum. unfold code_point_sum.
  rewrite (code_point_sum_Permutation _ _ Hperm). reflexivity.
Qed.

(** ** The store *)

Lemma store_history capacity h0 ops st :
  after_inserts capacity h0 ops = Ok st ->
  length (heap st) = (length h0 + length ops)%nat /\
  (forall r c, h0 !! r = Some c -> heap st !! r = Some c) /\
  (forall k r, (k, r) ∈ table_entries (self st) ->
               (length h0 <= r < length (heap st))%nat).
Proof.
  revert ops st.
  apply (after_inserts_ind capacity h0
           (fun ops st =>
              length (heap st) = (length h0 + length ops)%nat /\
              (forall r c, h0 !! r = Some c -> heap st !! r = Some c) /\
              (forall k r, (k, r) ∈ table_entries (self st) ->
                           (length h0 <= r < length (heap st))%nat))).
  - intros t Hinit. simpl. split; [lia|]. split; [auto|].
    intros k r Hin. apply HashTable_init_Ok in Hinit as [_ ->].
    unfold table_entries in Hin. simpl in Hin.
    rewrite entries_replicate_None in Hin. inversion Hin.
  - intros ops st k n st' Hst (Hlen & Hold & Hrefs) Hrun.
    apply after_inserts_wf in Hst as (Hwf & _ & _).
    destruct (insert_effect st k n Hwf)
      as (st1 & r & Hrun1 & _ & _ & Hlen1 & _ & Hent & _ & Hfree & Hin & Hout).
    assert (st1 = st') as -> by congruence.
    split; [rewrite Hlen1, Hlen, length_app; simpl; lia|]. split.
    + intros r' c Hc. apply Hfree; [apply Hold, Hc|].
      intros k' Hin'. apply Hrefs in Hin'. apply lookup_lt_Some in Hc. lia.
    + intros k' r' Hin'. rewrite Hlen1. apply Hent in Hin' as [[= -> ->]|Hin'].
      * destruct (decide (k ∈ table_keys (self st))) as [Hk|Hk].
        -- destruct (Hin Hk) as [_ Hr]. apply Hrefs in Hr. lia.
        -- destruct (Hout Hk) as [-> _]. lia.
      * apply Hrefs in Hin'. lia.
Qed.

(** X10. Every insert creates exactly one Contact object, also when it
    only updates a number; the Contacts that existed before the table
    was constructed are never modified, and the table refers only to
    Contacts that its inserts created. *)
Theorem insert_store_frame capacity h0 ops st :
  after_inserts capacity h0 ops = Ok st ->
  length (heap st) = (length h0 + length ops)%nat /\
  (forall r c, h0 !! r = Some c -> heap st !! r = Some c) /\
  (forall k r, (k, r) ∈ table_entries (self st) ->
               (length h0 <= r < length (heap st))%nat).
Proof. apply store_history. Qed.

(** ** What print_table writes for any table *)

Lemma print_chain_run st hd :
  (forall k r, (k, r) ∈ node_entries hd -> is_Some (heap st !! r)) ->
  print_chain hd st = Ok (chain_text (heap st) (node_entries hd), st).
Proof.
  induction hd as [k v|k v n IH] using Node_induction; intros Hvalid.
  - destruct (Hvalid k v (list_elem_of_here _ _)) as [c Hc].
    simpl. unfold bind, Contact_str, ret, chain_text, entry_text. simpl.
    rewrite Hc. rewrite !string_app_assoc. reflexivity.
  - destruct (Hvalid k v (list_elem_of_here _ _)) as [c Hc].
    simpl. unfold bind at 1 2. unfold Contact_str at 1. rewrite Hc.
    rewrite IH by (intros k' r' Hin; apply (Hvalid k' r');
                   apply list_elem_of_further, Hin).
    unfold ret. unfold chain_text at 2. simpl foldr. unfold entry_text at 1.
    simpl snd. rewrite Hc. fold (chain_text (heap st) (node_entries n)).
    rewrite !string_app_assoc. reflexivity.
Qed.

Lemma print_slot_run st i slot :
  data (self st) !! i = Some slot ->
  (forall k r, (k, r) ∈ chain_entries slot -> is_Some (heap st !! r)) ->
  print_slot (Z.of_nat i) st = Ok (slot_line (heap st) i slot +:+ LF, st).
Proof.
  intros Hi Hvalid. unfold print_slot, bind, data_getitem.
  rewrite py_index_in_range by (apply lookup_lt_Some in Hi; lia).
  rewrite Nat2Z.id, Hi. unfold slot_line. destruct slot as [hd|].
  - rewrite (print_chain_run st hd Hvalid). unfold ret.
    rewrite !string_app_assoc. reflexivity.
  - unfold ret. rewrite !string_app_assoc. reflexivity.
Qed.

Lemma print_slots_run st :
  (forall k r, (k, r) ∈ table_entries (self st) -> is_Some (heap st !! r)) ->
  forall d a,
    drop a (data (self st)) = d ->
    print_slots (Z.of_nat <$> seq a (length d)) st
    = Ok (text_of_lines (slot_lines (heap st) a d), st).
Proof.
  intros Hvalid d. induction d as [|slot d IH]; intros a Hdrop; [reflexivity|].
  assert (data (self st) !! a = Some slot) as Ha.
  { rewrite <- (Nat.add_0_r a), <- lookup_drop, Hdrop. reflexivity. }
  assert (drop (S a) (data (self st)) = d) as Hdrop'.
  { replace (S a) with (a + 1)%nat by lia.
    rewrite <- drop_drop, Hdrop. reflexivity. }
  change (length (slot :: d)) with (S (length d)).
  rewrite <- cons_seq, fmap_cons. cbn [print_slots]. unfold bind.
  rewrite (print_slot_run st a slot Ha).
  - rewrite (IH (S a) Hdrop'). unfold ret, text_of_lines. cbn [slot_lines foldr].
    rewrite string_app_assoc. reflexivity.
  - intros k r Hin. apply (Hvalid k r), table_entries_elem. eauto.
Qed.

Lemma print_table_run st :
  wf st -> print_table st = Ok (table_text st, st).
Proof.
  intros Hwf. unfold print_table, bind, get_size, range.
  replace (Z.to_nat (size (self st))) with (length (data (self st)))
    by (pose proof (wf_len st Hwf); lia).
  apply print_slots_run; [|reflexivity].
  intros k r Hin. destruct (wf_ref st Hwf k r Hin) as (c & Hc & _). eauto.
Qed.

(** X8. print_table never raises and changes neither the table nor the
    store; it writes one line per slot, in index order: the index label,
    then Empty or, for each entry of the chain in chain order, a dash,
    the Contact's name and number, and a space. *)
Theorem print_table_text capacity h0 ops st :
  after_inserts capacity h0 ops = Ok st ->
  print_table st = Ok (table_text st, st).
Proof.
  intros Hst. apply after_inserts_wf in Hst as (Hwf & _ & _).
  apply print_table_run, Hwf.
Qed.

Lemma lines_text_of_lines ls :
  Forall (fun l => has_LF l = false) ls -> lines (text_of_lines ls) = ls.
Proof.
  unfold lines. induction 1 as [|l ls Hl _ IH]; [reflexivity|].
  unfold text_of_lines. simpl foldr. rewrite (lines_from_line l _ _ Hl).
  fold (text_of_lines ls). rewrite IH. reflexivity.
Qed.

Lemma has_LF_chain_text h l :
  (forall k r, (k, r) ∈ l ->
     exists c, h !! r = Some c /\ has_LF (name c) = false /\
               has_LF (number c) = false) ->
  has_LF (chain_text h l) = false.
Proof.
  induction l as [|[k r] l IH]; intros Hl; [reflexivity|].
  unfold chain_text. simpl foldr. fold (chain_text h l).
  destruct (Hl k r (list_elem_of_here _ _)) as (c & Hc & Hn & Hm).
  unfold entry_text. simpl snd. rewrite Hc, !has_LF_app, Hn, Hm.
  rewrite IH by (intros k' r' Hin; apply (Hl k' r');
                 apply list_elem_of_further, Hin).
  reflexivity.
Qed.

Lemma slot_lines_no_LF h d : forall a,
  (forall slot k r, slot ∈ d -> (k, r) ∈ chain_entries slot ->
     exists c, h !! r = Some c /\ has_LF (name c) = false /\
               has_LF (number c) = false) ->
  Forall (fun l => has_LF l = false) (slot_lines h a d).
Proof.
  induction d as [|slot d IH]; intros a Hd; [apply Forall_nil_2|].
  simpl. apply Forall_cons. split.
  - unfold slot_line. rewrite !has_LF_app, has_LF_str_int.
    destruct slot as [hd|]; [|reflexivity].
    rewrite has_LF_chain_text; [reflexivity|].
    intros k r Hin. apply (Hd (Some hd) k r); [apply list_elem_of_here|exact Hin].
  - apply IH. intros slot' k r Hs Hin.
    apply (Hd slot' k r); [apply list_elem_of_further, Hs|exact Hin].
Qed.

Lemma length_slot_lines h d : forall a, length (slot_lines h a d) = length d.
Proof. induction d as [|slot d IH]; intros a; simpl; [|rewrite IH]; reflexivity. Qed.

(** X9. When no inserted name or number holds a newline, the text that
    print_table writes has exactly as many lines as the table has slots,
    line i being the line of slot i. *)
Theorem print_table_lines capacity h0 ops st :
  after_inserts capacity h0 ops = Ok st ->
  Forall (fun op => has_LF op.1 = false /\ has_LF op.2 = false) ops ->
  exists out,
    print_table st = Ok (out, st) /\
    lines out = table_lines st /\
    Z.of_nat (length (lines out)) = capacity.
Proof.
  intros Hst Hops. pose proof (search_contents _ _ _ _ Hst) as Hmap.
  apply after_inserts_wf in Hst as (Hwf & Hsz & _).
  exists (table_text st). split; [apply print_table_run, Hwf|].
  assert (lines (table_text st) = table_lines st) as Hlines.
  { apply lines_text_of_lines, slot_lines_no_LF.
    intros slot k r Hslot Hin.
    assert ((k, r) ∈ table_entries (self st)) as Hin'.
    { apply list_elem_of_lookup in Hslot as [i Hi].
      apply table_entries_elem. eauto. }
    destruct (wf_search st Hwf k) as (o & Hs & Ho & _).
    assert (o = Some r) as -> by (apply Ho; exact Hin').
    specialize (Hmap k).
    destruct (contents_of_ops ops !! k) as [N|] eqn:Hk; [|congruence].
    destruct Hmap as (r' & Hs' & Hr').
    assert (r' = r) as -> by congruence.
    exists (mkContact k N). split; [exact Hr'|].
    apply contents_of_ops_Some in Hk.
    rewrite Forall_forall in Hops. apply (Hops (k, N) Hk). }
  split; [exact Hlines|].
  rewrite Hlines. unfold table_lines. rewrite length_slot_lines.
  rewrite <- Hsz. apply (wf_len st Hwf).
Qed.

(** ** The empty key *)

(** X11. The empty string is accepted as a key: insert stores it, search
    finds it with the inserted number, and its entry is in slot 0. *)
Theorem empty_key_accepted capacity h0 ops st N :
  after_inserts capacity h0 ops = Ok st ->
  exists st' r slot,
    insert "" N st = Ok (tt, st') /\
    search "" st' = Ok (Some r, st') /\
    heap st' !! r = Some (mkContact "" N) /\
    data (self st') !! 0%nat = Some slot /\
    ("", r) ∈ chain_entries slot.
Proof.
  intros Hst. apply after_inserts_wf in Hst as (Hwf & _ & _).
  destruct (insert_wf st "" N Hwf) as (st' & Hrun & Hwf' & _ & _).
  destruct (insert_same_key st "" N st' Hwf Hrun) as (r & Hs & Hr).
  destruct (wf_search st' Hwf' "") as (o & Hs' & Ho & _).
  assert (o = Some r) as -> by congruence.
  assert (("", r) ∈ table_entries (self st')) as Hin by (apply Ho; reflexivity).
  apply table_entries_elem in Hin as (i & slot & Hi & Hin).
  pose proof (wf_home st' Hwf' i slot "" r Hi Hin) as Hhome.
  unfold home in Hhome. simpl in Hhome.
  rewrite Z.mod_0_l in Hhome by (pose proof (wf_size st' Hwf'); lia).
  simpl in Hhome. subst i.
  exists st', r, slot. auto.
Qed.

(** ** The further properties at the driver's table *)

Lemma search_agrees_with_map_witness :
  exists r,
    search "Rebecca"
      (state_or_empty
         (after_inserts 10 [] (driver_ops ++ [("Rebecca", "999-444-9999")])))
    = Ok (Some r,
          state_or_empty
            (after_inserts 10 [] (driver_ops ++ [("Rebecca", "999-444-9999")]))) /\
    heap (state_or_empty
            (after_inserts 10 [] (driver_ops ++ [("Rebecca", "999-444-9999")])))
      !! r
    = Some (mkContact "Rebecca" "999-444-9999").
Proof.
  exact (search_agrees_with_map 10 []
           (driver_ops ++ [("Rebecca", "999-444-9999")]) _ "Rebecca" eq_refl).
Defined.

Lemma insert_keeps_other_keys_witness :
  exists st',
    insert "Amy" "111-222-3333" driver_state = Ok (tt, st') /\
    search "John" st' = Ok (Some 0%nat, st') /\
    forall r, Some 0%nat = Some r -> heap st' !! r = heap driver_state !! r.
Proof.
  apply (insert_keeps_other_keys 10 [] driver_ops);
    [reflexivity|discriminate|reflexivity].
Defined.

Lemma search_handle_stable_witness :
  exists st',
    inserts [("Amy", "111-222-3333"); ("Rebecca", "999-444-9999")] driver_state
    = Ok (tt, st') /\
    search "John" st' = Ok (Some 0%nat, st') /\
    name <$> heap st' !! 0%nat = Some "John" /\
    ("John" ∉ [("Amy", "111-222-3333"); ("Rebecca", "999-444-9999")].*1 ->
     heap st' !! 0%nat = heap driver_state !! 0%nat).
Proof.
  apply (search_handle_stable 10 [] driver_ops); reflexivity.
Defined.

Lemma chain_order_first_insertion_witness :
  (chain_entries (Some (mkNode "Amy" 2%nat (Some (mkNode "May" 3%nat None))))).*1
  = filter (fun k => home 10 k = 5%nat)
      (first_occurrences
         (driver_ops ++ [("Amy", "111-222-3333"); ("May", "222-333-1111")]).*1).
Proof.
  apply (chain_order_first_insertion 10 []
           (driver_ops ++ [("Amy", "111-222-3333"); ("May", "222-333-1111")])
           driver_state_Amy_May);
    reflexivity.
Defined.

Lemma entry_count_distinct_keys_witness :
  length (table_entries (self driver_state))
  = length (first_occurrences driver_ops.*1).
Proof. apply (entry_count_distinct_keys 10 [] driver_ops). reflexivity. Defined.

Lemma entry_in_hash_slot_witness :
  hash_function "John" driver_state = Ok (Z.of_nat 9, driver_state) /\
  exists c, heap driver_state !! 0%nat = Some c /\ name c = "John".
Proof.
  apply (entry_in_hash_slot 10 [] driver_ops driver_state 9
           (Some (mkNode "John" 0%nat None)));
    [reflexivity|reflexivity|apply list_elem_of_here].
Defined.

Lemma hash_function_anagram_witness :
  hash_function "ab" driver_state = hash_function "ba" driver_state.
Proof. apply hash_function_anagram. apply perm_swap. Defined.

Lemma print_table_text_witness :
  print_table driver_state = Ok (table_text driver_state, driver_state).
Proof. apply (print_table_text 10 [] driver_ops). reflexivity. Defined.

Lemma print_table_lines_witness :
  exists out,
    print_table driver_state = Ok (out, driver_state) /\
    lines out = table_lines driver_state /\
    Z.of_nat (length (lines out)) = 10.
Proof.
  apply (print_table_lines 10 [] driver_ops); [reflexivity|].
  repeat constructor.
Defined.

Lemma insert_store_frame_witness :
  length (heap (state_or_empty
                  (after_inserts 10 [mkContact "Zoe" "000-000-0000"] driver_ops)))
  = (length [mkContact "Zoe" "000-000-0000"] + length driver_ops)%nat /\
  (forall r c,
     [mkContact "Zoe" "000-000-0000"] !! r = Some c ->
     heap (state_or_empty
             (after_inserts 10 [mkContact "Zoe" "000-000-0000"] driver_ops))
       !! r = Some c) /\
  (forall k r,
     (k, r) ∈ table_entries
                (self (state_or_empty
                         (after_inserts 10 [mkContact "Zoe" "000-000-0000"]
                            driver_ops))) ->
     (length [mkContact "Zoe" "000-000-0000"] <= r
      < length (heap (state_or_empty
                        (after_inserts 10 [mkContact "Zoe" "000-000-0000"]
                           driver_ops))))%nat).
Proof.
  apply (insert_store_frame 10 [mkContact "Zoe" "000-000-0000"] driver_ops).
  reflexivity.
Defined.

Lemma empty_key_accepted_witness :
  exists st' r slot,
    insert "" "555" driver_state = Ok (tt, st') /\
    search "" st' = Ok (Some r, st') /\
    heap st' !! r = Some (mkContact "" "555") /\
    data (self st') !! 0%nat = Some slot /\
    ("", r) ∈ chain_entries slot.
Proof. apply (empty_key_accepted 10 [] driver_ops). reflexivity. Defined.
